(** * Result tabulation of [Visualizations] (python/visualizations.py)

    A shallow embedding of [Visualizations.tabulate_results] and of the
    display encodings of [Visualizations.plot_predictions_by_dimension].

    - Numbers are exact: the code only compares scores, it never does
      arithmetic on them, so a Python int or finite float is the rational
      it denotes; the two infinities and NaN are kept as separate values
      with the comparisons of IEEE 754.
    - A pandas DataFrame is its column names and its rows in order, a row
      being its index label and a dictionary from column name to cell.
    - DataFrames live in a store of objects; [copy] allocates a new object,
      [test_results[col] = v] and [test_results.at[idx, col] = v] update
      an object in place.
    - [IrisGP] (module genetic_programming) is used through its interface:
      the two threshold constants and [evaluate_row], which may raise and
      may keep state of its own. *)

From Stdlib Require Import ZArith QArith.
From stdpp Require Import base option list gmap sets strings fin_maps.

Local Open Scope string_scope.
Local Open Scope Z_scope.

(** ** Numbers *)

Inductive number : Type :=
  | Finite (q : Q)
  | PosInf
  | NegInf
  | NaN.

(** [x < y] on rationals, as a boolean. *)
Definition Qltb (x y : Q) : bool :=
  (Qnum x * QDen y <? Qnum y * QDen x)%Z.

(** Python's [a < b] on numbers: any comparison with NaN is [False]. *)
Definition number_lt (a b : number) : bool :=
  match a, b with
  | NaN, _ | _, NaN => false
  | Finite x, Finite y => Qltb x y
  | NegInf, NegInf => false
  | NegInf, _ => true
  | _, NegInf => false
  | PosInf, _ => false
  | Finite _, PosInf => true
  end.

(** ** Cells, rows and frames *)

Inductive value : Type :=
  | VNone
  | VBool (b : bool)
  | VNum (x : number)
  | VStr (s : string).

(** Index labels of the dataset are integers. *)
Definition label : Type := Z.

(** A row as [iterrows] yields it: [name] is the index label, [data] maps
    each column name to the cell. *)
Record Series : Type := mkSeries {
  name : label;
  data : gmap string value
}.

Record DataFrame : Type := mkDataFrame {
  columns : list string;
  rows : list Series
}.

Definition index (df : DataFrame) : list label := name <$> rows df.

Global Instance DataFrame_inhabited : Inhabited DataFrame :=
  populate (mkDataFrame [] []).

(** [df[col] = v] with a scalar [v]: every row gets [v] in column [col];
    the column is appended when it is new. *)
Definition setitem (col : string) (v : value) (df : DataFrame) : DataFrame :=
  {| columns := if decide (col ∈ columns df) then columns df
                else (columns df ++ [col])%list;
     rows := (λ r, mkSeries (name r) (<[col := v]> (data r))) <$> rows df |}.

(** A row of missing cells, as pandas fills a row it has to create. *)
Definition nan_row (cols : list string) : gmap string value :=
  list_to_map ((λ c, (c, VNum NaN)) <$> cols).

(** [df.at[idx, col] = v]. Addressing is by label: every row labelled [idx]
    receives [v] (with a unique index that is one row; with a repeated label
    pandas falls back to [.loc], which writes all of them). A column that
    does not exist is created with missing cells, a label that does not
    exist adds a row (setting with enlargement). *)
Definition at_set (idx : label) (col : string) (v : value) (df : DataFrame)
  : DataFrame :=
  let cols := if decide (col ∈ columns df) then columns df
              else (columns df ++ [col])%list in
  let filled :=
    (λ r, if decide (col ∈ columns df) then r
          else mkSeries (name r) (<[col := VNum NaN]> (data r))) <$> rows df in
  {| columns := cols;
     rows := if decide (idx ∈ index df)
             then (λ r, if decide (name r = idx)
                        then mkSeries (name r) (<[col := v]> (data r))
                        else r) <$> filled
             else (filled ++ [mkSeries idx (<[col := v]> (nan_row cols))])%list |}.

(** [df.iterrows()]: the rows in order, taken from the values as they are
    when the iteration starts. *)
Definition iterrows (df : DataFrame) : list Series := rows df.

(** ** The IrisGP interface *)

Record IrisGP (ParseTree PState exn : Type) : Type := mkIrisGP {
  THRESHOLD_LOW : Q;
  THRESHOLD_HIGH : Q;
  evaluate_row : ParseTree → Series → PState → PState * (exn + bool * number)
}.
Arguments mkIrisGP {_ _ _} _ _ _.
Arguments THRESHOLD_LOW {_ _ _} _.
Arguments THRESHOLD_HIGH {_ _ _} _.
Arguments evaluate_row {_ _ _} _ _ _ _.

(** ** Class thresholds (visualizations.py, lines 51-56) *)

(** The value of the variable [species] as a function of [res]. *)
Definition species {ParseTree PState exn} (gp : IrisGP ParseTree PState exn)
  (res : number) : string :=
  if number_lt res (Finite (THRESHOLD_LOW gp)) then "Iris-setosa"
  else if number_lt res (Finite (THRESHOLD_HIGH gp)) then "Iris-versicolor"
  else "Iris-virginica".

(** ** Objects, state and exceptions *)

Definition loc : Type := positive.

Section Program.
Context {ParseTree PState exn : Type}.

(** The store of DataFrame objects and the predictor's own state. *)
Record state : Type := mkState {
  heap : gmap loc DataFrame;
  predictor : PState
}.

(** A computation changes the state and returns a value or raises; a
    raised exception keeps the state reached so far. *)
Definition M (A : Type) : Type := state → state * (exn + A).

Definition ret {A} (a : A) : M A := λ σ, (σ, inr a).

Definition bind {A B} (m : M A) (k : A → M B) : M B :=
  λ σ, match m σ with
       | (σ', inl e) => (σ', inl e)
       | (σ', inr a) => k a σ'
       end.

(** [df.copy()]: a new object with the contents of [l]. *)
Definition copy (l : loc) : M loc :=
  λ σ, let l' := fresh (dom (heap σ)) in
       (mkState (<[l' := heap σ !!! l]> (heap σ)) (predictor σ), inr l').

(** In-place update of the object at [l]. *)
Definition update (l : loc) (f : DataFrame → DataFrame) : M unit :=
  λ σ, (mkState (alter f l (heap σ)) (predictor σ), inr tt).

Definition read (l : loc) : M DataFrame :=
  λ σ, (σ, inr (heap σ !!! l)).

(** A call into the predictor: it sees and changes only its own state. *)
Definition call {A} (f : PState → PState * (exn + A)) : M A :=
  λ σ, let '(s', r) := f (predictor σ) in (mkState (heap σ) s', r).

Fixpoint for_each {A} (xs : list A) (body : A → M unit) : M unit :=
  match xs with
  | [] => ret tt
  | x :: xs' => bind (body x) (λ _, for_each xs' body)
  end.
End Program.

Arguments state : clear implicits.
Arguments M : clear implicits.

Global Instance M_ret {PState exn} : MRet (M PState exn) := λ A, ret.
Global Instance M_bind {PState exn} : MBind (M PState exn) :=
  λ A B k m, bind m k.

Section Visualizations.
Context {ParseTree PState exn : Type}.
Variable gp : IrisGP ParseTree PState exn.

(** The body of the loop of [tabulate_results] (lines 48-57). *)
Definition tabulate_row (parse_tree : ParseTree) (test_results : loc)
  (row : Series) : M PState exn unit :=
  let idx := name row in
  '(correctness, res) ← call (evaluate_row gp parse_tree row);
  update test_results (at_set idx "Correct" (VBool correctness));;
  update test_results (at_set idx "PredictedValue" (VNum res));;
  let species :=
    if number_lt res (Finite (THRESHOLD_LOW gp)) then "Iris-setosa"
    else if number_lt res (Finite (THRESHOLD_HIGH gp)) then "Iris-versicolor"
    else "Iris-virginica" in
  update test_results (at_set idx "PredictedSpecies" (VStr species)).

(** [Visualizations.tabulate_results] (lines 43-58); [parse_tree] and
    [test_df] are the attributes of [self] it reads. *)
Definition tabulate_results (parse_tree : ParseTree) (test_df : loc)
  : M PState exn loc :=
  test_results ← copy test_df;
  update test_results (setitem "Correct" VNone);;
  update test_results (setitem "PredictedValue" VNone);;
  update test_results (setitem "PredictedSpecies" VNone);;
  df ← read test_results;
  for_each (iterrows df) (tabulate_row parse_tree test_results);;
  mret test_results.

(** The object built by [Visualizations.__init__] (lines 27-30). *)
Record Visualizations : Type := mkVisualizations {
  parse_tree : ParseTree;
  test_df : loc;
  test_results : loc
}.

Definition init (parse_tree : ParseTree) (test_df : loc)
  : M PState exn Visualizations :=
  test_results ← tabulate_results parse_tree test_df;
  mret (mkVisualizations parse_tree test_df test_results).
End Visualizations.

(** ** Display encodings (plot_predictions_by_dimension, lines 70-100) *)

Definition COLOR_MAP : gmap string string :=
  {[ "Iris-setosa" := "tab:blue";
     "Iris-versicolor" := "tab:orange";
     "Iris-virginica" := "tab:green" ]}.

Definition CORRECT_OPACITY : Q := 3 # 10.
Definition CORRECT_SIZE : Z := 30.
Definition INCORRECT_SIZE : Z := 60.
Definition CORRECT_LEGEND_SIZE : Z := 6.
Definition INCORRECT_LEGEND_SIZE : Z := 10.

(** Python's truth value of a cell. *)
Definition truthy (v : value) : bool :=
  match v with
  | VNone => false
  | VBool b => b
  | VNum (Finite q) => negb (Qeq_bool q 0)
  | VNum _ => true
  | VStr s => negb (String.eqb s "")
  end.

(** [alpha=CORRECT_OPACITY if row["Correct"] else 1] *)
Definition marker_alpha (correct : value) : Q :=
  if truthy correct then CORRECT_OPACITY else 1%Q.

(** [s=CORRECT_SIZE if row["Correct"] else INCORRECT_SIZE] *)
Definition marker_size (correct : value) : Z :=
  if truthy correct then CORRECT_SIZE else INCORRECT_SIZE.

(** [COLOR_MAP[key]]: [None] stands for KeyError. *)
Definition color_of (key : value) : option string :=
  match key with
  | VStr k => COLOR_MAP !! k
  | _ => None
  end.

(** The arguments of one [plt.scatter] call (lines 94-100); [None] stands
    for the KeyError of a failed lookup. *)
Record scatter : Type := mkScatter {
  scatter_x : value;
  scatter_y : value;
  scatter_color : string;
  scatter_alpha : Q;
  scatter_s : Z
}.

Definition scatter_args (part : string) (row : Series) : option scatter :=
  x ← data row !! (part +:+ "LengthCm");
  y ← data row !! (part +:+ "WidthCm");
  predicted ← data row !! "PredictedSpecies";
  color ← color_of predicted;
  correct ← data row !! "Correct";
  Some (mkScatter x y color (marker_alpha correct) (marker_size correct)).

(** The sizes and opacities of the two legend points (lines 106-107). *)
Definition legend_points : list (Z * Q * string) :=
  [ (CORRECT_LEGEND_SIZE, CORRECT_OPACITY, "Correct prediction");
    (INCORRECT_LEGEND_SIZE, 1%Q, "Wrong prediction") ].

(** ** Vocabulary of the statements *)

Definition derived : list string :=
  ["Correct"; "PredictedValue"; "PredictedSpecies"].

(** A row after lines 44-46: the three derived cells hold [None]. This is
    the row [iterrows] hands to the loop, hence to the predictor. *)
Definition pending (r : Series) : Series :=
  mkSeries (name r)
    (<["PredictedSpecies" := VNone]>
       (<["PredictedValue" := VNone]> (<["Correct" := VNone]> (data r)))).

(** The columns after lines 44-46. *)
Definition result_columns (cols : list string) : list string :=
  foldl (λ cs c, if decide (c ∈ cs) then cs else (cs ++ [c])%list) cols derived.

(** A dataset of test records: no record has a field named like a derived
    column. *)
Definition test_records (df : DataFrame) : Prop :=
  Forall (λ r, Forall (λ c, data r !! c = None) derived) (rows df).

(** Two scores that are the same number. *)
Definition same_score (a b : number) : Prop :=
  match a, b with
  | Finite x, Finite y => (x == y)%Q
  | PosInf, PosInf | NegInf, NegInf | NaN, NaN => True
  | _, _ => False
  end.

(** Two rows that differ at most in the predicted class. *)
Definition same_but_class (r1 r2 : Series) : Prop :=
  name r1 = name r2
  ∧ ∀ c, c ≠ "PredictedSpecies" → data r1 !! c = data r2 !! c.

(** The cell written by [at_set] in one row. *)
Definition set_cell (idx : label) (col : string) (v : value) (r : Series)
  : Series :=
  if decide (name r = idx)
  then mkSeries (name r) (<[col := v]> (data r)) else r.

Section Vocabulary.
Context {ParseTree PState exn : Type}.
Variable gp : IrisGP ParseTree PState exn.
Variable parse_tree : ParseTree.

(** The three cells written for one predictor result (lines 49-57). *)
Definition fill (out : bool * number) (m : gmap string value)
  : gmap string value :=
  <["PredictedSpecies" := VStr (species gp out.2)]>
    (<["PredictedValue" := VNum out.2]> (<["Correct" := VBool out.1]> m)).

(** The three writes of one iteration, on the frame. *)
Definition write_result (idx : label) (out : bool * number) (df : DataFrame)
  : DataFrame :=
  at_set idx "PredictedSpecies" (VStr (species gp out.2))
    (at_set idx "PredictedValue" (VNum out.2)
       (at_set idx "Correct" (VBool out.1) df)).

(** The writes of a run of iterations, each given by the row handed to the
    predictor and the result obtained. *)
Definition write_all (ios : list (Series * (bool * number))) (df : DataFrame)
  : DataFrame :=
  foldl (λ df io, write_result (name io.1) io.2 df) df ios.

(** What one iteration leaves in a row [r] of the frame. *)
Definition write_row (io : Series * (bool * number)) (r : Series) : Series :=
  if decide (name r = name io.1)
  then mkSeries (name r) (fill io.2 (data r)) else r.

(** What a run of iterations leaves in a row [r]: each iteration whose
    label is that of [r] overwrites the three derived cells. *)
Definition settle (ios : list (Series * (bool * number))) (r : Series)
  : Series :=
  foldl (λ r io, write_row io r) r ios.

(** The predictor called on the rows in order until it raises: its final
    state, the results obtained, the exception if any. *)
Fixpoint evals (its : list Series) (s : PState)
  : PState * list (bool * number) * option exn :=
  match its with
  | [] => (s, [], None)
  | row :: its' =>
      match evaluate_row gp parse_tree row s with
      | (s', inl e) => (s', [], Some e)
      | (s', inr out) =>
          let '(s'', outs, e) := evals its' s' in (s'', out :: outs, e)
      end
  end.

(** The result record of the specification: the fields of the record,
    then [correct], [predictedScore] and [predictedClass]. *)
Definition result_record (r : Series) (out : bool * number) : Series :=
  mkSeries (name r)
    (<["PredictedSpecies" := VStr (species gp out.2)]>
       (<["PredictedValue" := VNum out.2]>
          (<["Correct" := VBool out.1]> (data r)))).

(** The tabulator as the specification words it: for each record, in
    order, one call of the predictor on the record, and one result record
    built from the record and the predictor's answer; the first exception
    ends it. *)
Fixpoint tabulate (records : list Series) (s : PState)
  : PState * (exn + list Series) :=
  match records with
  | [] => (s, inr [])
  | r :: records' =>
      match evaluate_row gp parse_tree r s with
      | (s', inl e) => (s', inl e)
      | (s', inr out) =>
          match tabulate records' s' with
          | (s'', inl e) => (s'', inl e)
          | (s'', inr table) => (s'', inr (result_record r out :: table))
          end
      end
  end.

(** The predictor does not look at the three derived cells: it answers on
    a row that has them, still [None], as on the record. *)
Definition ignores_derived : Prop :=
  ∀ pt r s, evaluate_row gp pt (pending r) s = evaluate_row gp pt r s.

(** The predictor's answer does not depend on its own state. *)
Definition deterministic : Prop :=
  ∀ pt row s1 s2, (evaluate_row gp pt row s1).2 = (evaluate_row gp pt row s2).2.

(** The same predictor, keeping a log of the rows it was called on. *)
Definition with_log : IrisGP ParseTree (PState * list Series) exn :=
  mkIrisGP (THRESHOLD_LOW gp) (THRESHOLD_HIGH gp)
    (λ pt row sl,
       let '(s', r) := evaluate_row gp pt row sl.1 in
       ((s', (sl.2 ++ [row])%list), r)).
End Vocabulary.

(** ** A small dataset and predictor *)

(** The score is the petal length; the prediction counts as correct when the
    class of the score is the [Species] of the row; a row without a numeric
    petal length makes the predictor raise. The state counts the calls. *)
Definition example_gp : IrisGP unit nat string :=
  mkIrisGP 2%Q 5%Q
    (λ _ row n,
       match data row !! "PetalLengthCm" with
       | Some (VNum x) =>
           let predicted :=
             if number_lt x (Finite 2%Q) then "Iris-setosa"
             else if number_lt x (Finite 5%Q) then "Iris-versicolor"
             else "Iris-virginica" in
           (S n, inr (match data row !! "Species" with
                      | Some (VStr s) => String.eqb s predicted
                      | _ => false
                      end, x))
       | _ => (S n, inl "TypeError")
       end).

Definition example_row (idx : label) (petal_length : value) (sp : string)
  : Series :=
  mkSeries idx
    {[ "SepalLengthCm" := VNum (Finite (51 # 10));
       "SepalWidthCm" := VNum (Finite (35 # 10));
       "PetalLengthCm" := petal_length;
       "PetalWidthCm" := VNum (Finite (2 # 10));
       "Species" := VStr sp ]}.

Definition example_columns : list string :=
  ["SepalLengthCm"; "SepalWidthCm"; "PetalLengthCm"; "PetalWidthCm"; "Species"].

(** Five records with scores 1.0, 2.0, 4.9, 5.0 and 9.0. *)
Definition example_df : DataFrame :=
  mkDataFrame example_columns
    [ example_row 14 (VNum (Finite 1)) "Iris-setosa";
      example_row 98 (VNum (Finite 2)) "Iris-versicolor";
      example_row 75 (VNum (Finite (49 # 10))) "Iris-virginica";
      example_row 16 (VNum (Finite 5)) "Iris-virginica";
      example_row 131 (VNum (Finite 9)) "Iris-setosa" ].

(** The same records, the third one without a usable petal length. *)
Definition faulty_df : DataFrame :=
  mkDataFrame example_columns
    [ example_row 14 (VNum (Finite 1)) "Iris-setosa";
      example_row 98 (VNum (Finite 2)) "Iris-versicolor";
      example_row 75 VNone "Iris-virginica";
      example_row 16 (VNum (Finite 5)) "Iris-virginica";
      example_row 131 (VNum (Finite 9)) "Iris-setosa" ].

(** Two records that carry the same index label. *)
Definition repeated_df : DataFrame :=
  mkDataFrame example_columns
    [ example_row 0 (VNum (Finite 1)) "Iris-setosa";
      example_row 0 (VNum (Finite 9)) "Iris-setosa" ].

Definition empty_df : DataFrame := mkDataFrame example_columns [].

Definition example_state (df : DataFrame) : state nat :=
  mkState {[ 1%positive := df ]} 0%nat.

Definition logged_state (df : DataFrame) : state (nat * list Series) :=
  mkState {[ 1%positive := df ]} (0%nat, []).

(** The answers of [example_gp] on the records of [example_df], and the
    table of the specification's tabulator for them. *)
Definition example_answers : list (bool * number) :=
  [ (true, Finite 1); (true, Finite 2); (false, Finite (49 # 10));
    (true, Finite 5); (false, Finite 9) ].

Definition example_table : list Series :=
  zip_with (result_record example_gp) (rows example_df) example_answers.

(** ** Decidable equality of cells *)

Global Instance Q_eq_dec : EqDecision Q.
Proof. solve_decision. Defined.

Global Instance number_eq_dec : EqDecision number.
Proof. solve_decision. Defined.

Global Instance value_eq_dec : EqDecision value.
Proof. solve_decision. Defined.

Global Instance test_records_dec df : Decision (test_records df).
Proof. unfold test_records. apply _. Defined.

(** ** Plots and reports (lines 60-143) *)

(** matplotlib and sklearn are the outside world of these methods: a method
    is modelled by the calls it makes to them that return, in order, and by
    how it ends. A pyplot call is taken to return; the sklearn metrics and
    the plot of the confusion matrix display are an interface whose
    functions may raise. *)

(** [KeyError(key)] *)
Inductive KeyError : Type := mkKeyError (key : value).

(** [row[key]] on a row. *)
Definition series_getitem (key : string) (row : Series) : KeyError + value :=
  match data row !! key with
  | Some v => inr v
  | None => inl (mkKeyError (VStr key))
  end.

(** [COLOR_MAP[key]] with its exception. *)
Definition COLOR_MAP_getitem (key : value) : KeyError + string :=
  match color_of key with
  | Some c => inr c
  | None => inl (mkKeyError key)
  end.

(** [df[col]] as the list of its cells; a cell that a row lacks reads as
    the missing value. *)
Definition getitem (col : string) (df : DataFrame) : KeyError + list value :=
  if decide (col ∈ columns df)
  then inr ((λ r, default (VNum NaN) (data r !! col)) <$> rows df)
  else inl (mkKeyError (VStr col)).

(** The evaluation of the arguments of [plt.scatter] for one row, in the
    order of lines 95-99. *)
Definition scatter_call (part : string) (row : Series) : KeyError + scatter :=
  match series_getitem (part +:+ "LengthCm") row with
  | inl e => inl e
  | inr x =>
  match series_getitem (part +:+ "WidthCm") row with
  | inl e => inl e
  | inr y =>
  match series_getitem "PredictedSpecies" row with
  | inl e => inl e
  | inr predicted =>
  match COLOR_MAP_getitem predicted with
  | inl e => inl e
  | inr color =>
  match series_getitem "Correct" row with
  | inl e => inl e
  | inr correct =>
      inr (mkScatter x y color
             (if truthy correct then CORRECT_OPACITY else 1%Q)
             (if truthy correct then CORRECT_SIZE else INCORRECT_SIZE))
  end end end end end.

Inductive artist : Type :=
  | Patch (color label : string)
  | Line2D (xdata ydata : list value) (color marker linestyle : string)
      (markersize : Z) (alpha : Q) (label : string).

(** [legend_point] (lines 81-91) *)
Definition legend_point (size : Z) (alpha : Q) (label : string) : artist :=
  Line2D [] [] "gray" "o" "None" size alpha label.

(** [handles] (lines 102-108) *)
Definition handles : list artist :=
  [ Patch "tab:blue" "Predicted: Setosa";
    Patch "tab:orange" "Predicted: Versicolor";
    Patch "tab:green" "Predicted: Virginica";
    legend_point CORRECT_LEGEND_SIZE CORRECT_OPACITY "Correct prediction";
    legend_point INCORRECT_LEGEND_SIZE 1%Q "Wrong prediction" ].

Inductive plt_call : Type :=
  | plt_scatter (args : scatter)
  | plt_legend (handles : list artist) (bbox_to_anchor : Z * Z) (loc : string)
  | plt_xlabel (s : string)
  | plt_ylabel (s : string)
  | plt_title (s : string)
  | plt_grid (visible : bool)
  | plt_show.

(** The loop of lines 93-100: the scatter calls made, and the KeyError that
    ended the loop if there was one. *)
Fixpoint scatter_rows (part : string) (its : list Series)
  : list plt_call * (KeyError + unit) :=
  match its with
  | [] => ([], inr tt)
  | row :: its' =>
      match scatter_call part row with
      | inl e => ([], inl e)
      | inr args =>
          let '(calls, r) := scatter_rows part its' in
          (plt_scatter args :: calls, r)
      end
  end.

(** The calls after the loop (lines 110-114). *)
Definition decorations (part : string) : list plt_call :=
  [ plt_legend handles (1, 1) "upper left";
    plt_xlabel (part +:+ " Length (cm)");
    plt_ylabel (part +:+ " Width (cm)");
    plt_title ("Species Predicted by GP, Plotted by " +:+ part +:+ " Dimensions");
    plt_show ].

(** [Visualizations.plot_predictions_by_dimension] (lines 60-114), on the
    store [h]. *)
Definition plot_predictions_by_dimension {ParseTree}
  (self : @Visualizations ParseTree) (part : string) (h : gmap loc DataFrame)
  : list plt_call * (KeyError + unit) :=
  let '(calls, r) := scatter_rows part (iterrows (h !!! test_results self)) in
  match r with
  | inl e => (calls, inl e)
  | inr _ => ((calls ++ decorations part)%list, inr tt)
  end.

(** What the two report methods use of sklearn: the three metrics, and
    [disp_plot cm display_labels cmap] for
    [ConfusionMatrixDisplay(confusion_matrix=cm,
    display_labels=display_labels).plot(cmap=cmap)], which raises when the
    labels do not fit the matrix. *)
Record sklearn (Matrix LibError : Type) : Type := mkSklearn {
  confusion_matrix : list value → list value → LibError + Matrix;
  accuracy_score : list value → list value → LibError + number;
  classification_report : list value → list value → LibError + string;
  disp_plot : Matrix → list string → string → LibError + unit
}.
Arguments confusion_matrix {_ _} _ _ _.
Arguments accuracy_score {_ _} _ _ _.
Arguments classification_report {_ _} _ _ _.
Arguments disp_plot {_ _} _ _ _ _.

(** What ends a report method early: a missing column, a failure of a
    metric, or a failure of the plot of the display. *)
Inductive report_error (LibError : Type) : Type :=
  | MissingColumn (e : KeyError)
  | MetricError (e : LibError)
  | DisplayError (e : LibError).
Arguments MissingColumn {_} _.
Arguments MetricError {_} _.
Arguments DisplayError {_} _.

Inductive display_call (Matrix : Type) : Type :=
  | ConfusionMatrixDisplay_plot (confusion_matrix : Matrix)
      (display_labels : list string) (cmap : string)
  | pyplot (c : plt_call).
Arguments ConfusionMatrixDisplay_plot {_} _ _ _.
Arguments pyplot {_} _.

(** An argument of [print]. *)
Inductive printed : Type :=
  | PStr (s : string)
  | PNum (x : number).

(** The two label columns that both report methods read first:
    [self.test_results["Species"]], then
    [self.test_results["PredictedSpecies"]]. *)
Definition label_columns (table : DataFrame)
  : KeyError + list value * list value :=
  match getitem "Species" table with
  | inl e => inl e
  | inr y_true =>
      match getitem "PredictedSpecies" table with
      | inl e => inl e
      | inr y_pred => inr (y_true, y_pred)
      end
  end.

Section Reports.
Context {ParseTree Matrix LibError : Type}.
Variable sk : sklearn Matrix LibError.

(** [Visualizations.plot_confusion_matrix] (lines 116-133) *)
Definition plot_confusion_matrix (self : @Visualizations ParseTree)
  (h : gmap loc DataFrame)
  : list (display_call Matrix) * (report_error LibError + unit) :=
  match label_columns (h !!! test_results self) with
  | inl e => ([], inl (MissingColumn e))
  | inr (y_true, y_pred) =>
      match confusion_matrix sk y_true y_pred with
      | inl e => ([], inl (MetricError e))
      | inr cm =>
          match disp_plot sk cm
                  ["Iris-setosa"; "Iris-versicolor"; "Iris-virginica"] "RdPu"
          with
          | inl e => ([], inl (DisplayError e))
          | inr _ =>
              ([ ConfusionMatrixDisplay_plot cm
                   ["Iris-setosa"; "Iris-versicolor"; "Iris-virginica"] "RdPu";
                 pyplot (plt_xlabel "Predicted Species");
                 pyplot (plt_ylabel "Actual Species");
                 pyplot (plt_title "GP Predicted Species Confusion Matrix");
                 pyplot (plt_grid false);
                 pyplot plt_show ], inr tt)
          end
      end
  end.

(** [Visualizations.print_classification_report] (lines 135-143): the
    arguments of each [print] call made. *)
Definition print_classification_report (self : @Visualizations ParseTree)
  (h : gmap loc DataFrame)
  : list (list printed) * (report_error LibError + unit) :=
  match label_columns (h !!! test_results self) with
  | inl e => ([], inl (MissingColumn e))
  | inr (y_true, y_pred) =>
      match accuracy_score sk y_true y_pred with
      | inl e => ([], inl (MetricError e))
      | inr accuracy =>
          match classification_report sk y_true y_pred with
          | inl e =>
              ([ [PStr "Accuracy:"; PNum accuracy];
                 [PStr (String (Ascii.ascii_of_nat 10) "Classification Report:")] ],
               inl (MetricError e))
          | inr report =>
              ([ [PStr "Accuracy:"; PNum accuracy];
                 [PStr (String (Ascii.ascii_of_nat 10) "Classification Report:")];
                 [PStr report] ], inr tt)
          end
      end
  end.
End Reports.

(** ** More vocabulary *)

(** Every row has exactly the columns of the frame. *)
Definition rectangular (df : DataFrame) : Prop :=
  Forall (λ r, dom (data r) = list_to_set (columns df)) (rows df).

(** The last character of a string. *)
Fixpoint last_char (s : string) : option Ascii.ascii :=
  match s with
  | EmptyString => None
  | String a EmptyString => Some a
  | String _ s' => last_char s'
  end.

(** The predictor reports a prediction as correct exactly when the class of
    its score is the [Species] of the row. *)
Definition consistent {ParseTree PState exn}
  (gp : IrisGP ParseTree PState exn) : Prop :=
  ∀ pt row s s' correct score,
    evaluate_row gp pt row s = (s', inr (correct, score)) →
    correct = true ↔ data row !! "Species" = Some (VStr (species gp score)).

(** ** More examples *)

(** The object that [__init__] builds in [example_state]. *)
Definition example_self : @Visualizations unit :=
  mkVisualizations tt 1%positive 2%positive.

(** A dataset without the [Species] column. *)
Definition unlabelled_df : DataFrame :=
  mkDataFrame ["PetalLengthCm"; "PetalWidthCm"]
    [ mkSeries 14 {[ "PetalLengthCm" := VNum (Finite 1);
                     "PetalWidthCm" := VNum (Finite (2 # 10)) ]};
      mkSeries 98 {[ "PetalLengthCm" := VNum (Finite (49 # 10));
                     "PetalWidthCm" := VNum (Finite (15 # 10)) ]} ].

(** The table of [example_df] after a later write that left a missing
    value in the [PredictedSpecies] cell of the second row. *)
Definition stale_table : DataFrame :=
  at_set 98 "PredictedSpecies" (VNum NaN)
    (mkDataFrame (result_columns example_columns) example_table).

(** Stand-ins for sklearn: the matrix counts the pairs of labels, over the
    labels that occur, in order of first occurrence; the accuracy is the
    number of positions where the two sequences agree over the length, and
    raises on no record; the report is a fixed text; the plot of the
    display raises when the number of labels is not the size of the
    matrix. *)
Definition hits (y_true y_pred : list value) : nat :=
  length (filter (λ p, p.1 = p.2) (zip y_true y_pred)).

Definition example_matrix (y_true y_pred : list value) : list (list nat) :=
  let labels := remove_dups (y_true ++ y_pred)%list in
  (λ l1, (λ l2, length (filter (λ p, p.1 = l1 ∧ p.2 = l2) (zip y_true y_pred)))
           <$> labels) <$> labels.

Definition example_sk : sklearn (list (list nat)) string :=
  mkSklearn (list (list nat)) string
    (λ y_true y_pred, inr (example_matrix y_true y_pred))
    (λ y_true y_pred,
       match y_true with
       | [] => inl "ValueError"
       | _ => inr (Finite (Z.of_nat (hits y_true y_pred)
                           # Pos.of_nat (length y_true)))
       end)
    (λ _ _, inr "report")
    (λ cm display_labels _,
       if decide (length cm = length display_labels) then inr tt
       else inl "ValueError").

(** Two records, both of one species and both predicted as that species. *)
Definition one_class_df : DataFrame :=
  mkDataFrame example_columns
    [ example_row 14 (VNum (Finite 1)) "Iris-setosa";
      example_row 98 (VNum (Finite (3 # 2))) "Iris-setosa" ].

(** * Properties *)

(** ** Comparisons and the class thresholds *)

Lemma Qltb_lt (x y : Q) : Qltb x y = true ↔ (x < y)%Q.
Proof. unfold Qltb, Qlt. apply Z.ltb_lt. Qed.

Lemma Qltb_ge (x y : Q) : Qltb x y = false ↔ (y <= x)%Q.
Proof. unfold Qltb, Qle. apply Z.ltb_ge. Qed.

Section Thresholds.
Context {ParseTree PState exn : Type}.
Variable gp : IrisGP ParseTree PState exn.

Local Abbreviation T_low := (THRESHOLD_LOW gp).
Local Abbreviation T_high := (THRESHOLD_HIGH gp).

Lemma species_cases (res : number) :
  species gp res = "Iris-setosa" ∧ number_lt res (Finite T_low) = true
  ∨ species gp res = "Iris-versicolor"
    ∧ number_lt res (Finite T_low) = false
    ∧ number_lt res (Finite T_high) = true
  ∨ species gp res = "Iris-virginica"
    ∧ number_lt res (Finite T_low) = false
    ∧ number_lt res (Finite T_high) = false.
Proof.
  unfold species.
  destruct (number_lt res (Finite T_low)); [by left|].
  destruct (number_lt res (Finite T_high)); [right; by left|].
  right; by right.
Qed.

Lemma species_setosa (s : Q) :
  species gp (Finite s) = "Iris-setosa" ↔ (s < T_low)%Q.
Proof.
  rewrite <- Qltb_lt. unfold species; simpl.
  destruct (Qltb s T_low); [done|].
  destruct (Qltb s T_high); split; discriminate.
Qed.

Lemma species_versicolor (s : Q) :
  species gp (Finite s) = "Iris-versicolor" ↔ (T_low <= s ∧ s < T_high)%Q.
Proof.
  rewrite <- Qltb_lt, <- Qltb_ge. unfold species; simpl.
  destruct (Qltb s T_low); [split; [discriminate|by intros [? _]]|].
  destruct (Qltb s T_high); [done|]. split; [discriminate|by intros [_ ?]].
Qed.

Lemma species_virginica (s : Q) :
  (T_low <= T_high)%Q →
  species gp (Finite s) = "Iris-virginica" ↔ (T_high <= s)%Q.
Proof.
  intros Hasc. rewrite <- Qltb_ge. unfold species; simpl.
  destruct (Qltb s T_low) eqn:Hlow.
  - split; [discriminate|]. intros Hhigh%Qltb_ge. apply Qltb_lt in Hlow.
    exfalso. apply (Qlt_irrefl s).
    eapply Qlt_le_trans; [done|]. by eapply Qle_trans.
  - destruct (Qltb s T_high); [split; discriminate|done].
Qed.

(** C1. For every real score [s] the thresholder returns Iris-setosa
    (class A) iff [s < T_low], Iris-versicolor (class B) iff
    [T_low <= s < T_high] and Iris-virginica (class C) iff [s >= T_high];
    a score equal to a threshold falls in the upper class. The thresholds
    are ascending, [T_low < T_high], as the specification fixes them. *)
Theorem species_intervals (s : Q) :
  (T_low < T_high)%Q →
  (species gp (Finite s) = "Iris-setosa" ↔ (s < T_low)%Q)
  ∧ (species gp (Finite s) = "Iris-versicolor"
     ↔ (T_low <= s ∧ s < T_high)%Q)
  ∧ (species gp (Finite s) = "Iris-virginica" ↔ (T_high <= s)%Q)
  ∧ species gp (Finite T_low) = "Iris-versicolor"
  ∧ species gp (Finite T_high) = "Iris-virginica".
Proof.
  intros Hasc. split_and!.
  - apply species_setosa.
  - apply species_versicolor.
  - apply species_virginica. by apply Qlt_le_weak.
  - apply species_versicolor. split; [apply Qle_refl|done].
  - apply species_virginica; [by apply Qlt_le_weak|apply Qle_refl].
Qed.

(** The class depends on the score as a number, not on how it is written. *)
Lemma number_lt_same (a b c : number) :
  same_score a b → number_lt a c = number_lt b c.
Proof.
  destruct a as [x| | |], b as [y| | |]; simpl; try done.
  destruct c as [z| | |]; simpl; try done. intros Hxy.
  apply eq_true_iff_eq. rewrite !Qltb_lt. by rewrite Hxy.
Qed.

Lemma species_same_score (a b : number) :
  same_score a b → species gp a = species gp b.
Proof.
  intros Hab. unfold species.
  by rewrite !(number_lt_same a b _ Hab).
Qed.

Lemma species_in_COLOR_MAP (res : number) : species gp res ∈ dom COLOR_MAP.
Proof.
  apply elem_of_dom.
  destruct (species_cases res) as [[-> _]|[[-> _]|[-> _]]]; by eexists.
Qed.
End Thresholds.

Lemma species_intervals_witness :
  (THRESHOLD_LOW example_gp < THRESHOLD_HIGH example_gp)%Q
  ∧ (species example_gp (Finite (49 # 10)) = "Iris-setosa" ↔ (49 # 10 < 2)%Q)
  ∧ (species example_gp (Finite (49 # 10)) = "Iris-versicolor"
     ↔ (2 <= 49 # 10 ∧ 49 # 10 < 5)%Q)
  ∧ (species example_gp (Finite (49 # 10)) = "Iris-virginica"
     ↔ (5 <= 49 # 10)%Q)
  ∧ species example_gp (Finite 2) = "Iris-versicolor"
  ∧ species example_gp (Finite 5) = "Iris-virginica".
Proof.
  split; [reflexivity|].
  apply (species_intervals example_gp (49 # 10)). reflexivity.
Defined.

(** The scenario of the specification: with thresholds 2.0 and 5.0, the
    scores 1.0, 2.0, 4.9, 5.0, 9.0 give the classes A, B, B, C, C. *)
Example species_scenario :
  species example_gp <$>
    [Finite 1; Finite 2; Finite (49 # 10); Finite 5; Finite 9]
  = ["Iris-setosa"; "Iris-versicolor"; "Iris-versicolor";
     "Iris-virginica"; "Iris-virginica"].
Proof. reflexivity. Qed.

(** A score that is not a number compares below nothing and falls in the
    last branch. *)
Example species_nan : species example_gp NaN = "Iris-virginica".
Proof. reflexivity. Qed.

(** ** Display encodings *)

(** C8. Correct predictions are drawn smaller and more transparent than
    incorrect ones: the size for [correct = True] is below the size for
    [correct = False], and so is the opacity. *)
Theorem correct_smaller_and_fainter :
  marker_size (VBool true) < marker_size (VBool false)
  ∧ (marker_alpha (VBool true) < marker_alpha (VBool false))%Q.
Proof. split; reflexivity. Qed.

(** The legend points follow the same order. *)
Remark legend_smaller_and_fainter :
  CORRECT_LEGEND_SIZE < INCORRECT_LEGEND_SIZE ∧ (CORRECT_OPACITY < 1)%Q.
Proof. split; reflexivity. Qed.

Lemma dom_COLOR_MAP :
  dom COLOR_MAP = ({[ "Iris-setosa"; "Iris-versicolor"; "Iris-virginica" ]} : gset string).
Proof. unfold COLOR_MAP. rewrite !dom_insert_L, dom_singleton_L. by rewrite !(assoc_L (∪)). Qed.

(** ** Frames: the derived columns and the writes by label *)

Lemma Correct_derived : "Correct" ∈ derived.
Proof. unfold derived. rewrite !elem_of_cons. auto. Qed.

Lemma PredictedValue_derived : "PredictedValue" ∈ derived.
Proof. unfold derived. rewrite !elem_of_cons. auto. Qed.

Lemma PredictedSpecies_derived : "PredictedSpecies" ∈ derived.
Proof. unfold derived. rewrite !elem_of_cons. auto. Qed.

Lemma elem_of_derived (c : string) :
  c ∈ derived ↔ c = "Correct" ∨ c = "PredictedValue" ∨ c = "PredictedSpecies".
Proof. unfold derived. rewrite !elem_of_cons, elem_of_nil. tauto. Qed.

Lemma setitem_derived df :
  setitem "PredictedSpecies" VNone
    (setitem "PredictedValue" VNone (setitem "Correct" VNone df))
  = mkDataFrame (result_columns (columns df)) (pending <$> rows df).
Proof.
  unfold setitem, result_columns, pending; simpl. f_equal.
  rewrite <- !list_fmap_compose. apply list_fmap_ext. by intros _ [??] _.
Qed.

Lemma add_column_keeps (c x : string) cs :
  x ∈ cs → x ∈ (if decide (c ∈ cs) then cs else (cs ++ [c])%list).
Proof. case_decide; [done|]. rewrite elem_of_app. by left. Qed.

Lemma add_column_adds (c : string) cs :
  c ∈ (if decide (c ∈ cs) then cs else (cs ++ [c])%list).
Proof.
  case_decide; [done|]. rewrite elem_of_app, list_elem_of_singleton. by right.
Qed.

Lemma derived_result_columns cols c : c ∈ derived → c ∈ result_columns cols.
Proof.
  rewrite elem_of_derived. unfold result_columns, derived; simpl.
  intros [->|[->| ->]].
  - apply add_column_keeps, add_column_keeps, add_column_adds.
  - apply add_column_keeps, add_column_adds.
  - apply add_column_adds.
Qed.

Lemma index_fmap (f : Series → Series) (rs : list Series) :
  (∀ r, name (f r) = name r) → name <$> (f <$> rs) = name <$> rs.
Proof.
  intros Hf. rewrite <- list_fmap_compose. apply list_fmap_ext.
  intros _ r _. apply Hf.
Qed.

Lemma name_set_cell idx col v r : name (set_cell idx col v r) = name r.
Proof. unfold set_cell. by case_decide. Qed.

Lemma set_cell_eq idx col v r :
  name r = idx → set_cell idx col v r = mkSeries idx (<[col := v]> (data r)).
Proof. intros <-. unfold set_cell. by rewrite decide_True. Qed.

Lemma set_cell_ne idx col v r : name r ≠ idx → set_cell idx col v r = r.
Proof. intros. unfold set_cell. by rewrite decide_False. Qed.

(** With the column and the label in place, [at_set] writes the cell of
    every row that carries the label and nothing else. *)
Lemma at_set_cells idx col v df :
  col ∈ columns df → idx ∈ index df →
  at_set idx col v df = mkDataFrame (columns df) (set_cell idx col v <$> rows df).
Proof.
  intros Hc Hi. unfold at_set.
  destruct (decide (col ∈ columns df)); [|done].
  destruct (decide (idx ∈ index df)); [|done].
  by rewrite list_fmap_id.
Qed.

Section Writes.
Context {ParseTree PState exn : Type}.
Variable gp : IrisGP ParseTree PState exn.
Variable parse_tree : ParseTree.

Lemma name_write_row io r : name (write_row gp io r) = name r.
Proof. unfold write_row. by case_decide. Qed.

Lemma write_row_eq io r :
  name r = name io.1 →
  write_row gp io r = mkSeries (name r) (fill gp io.2 (data r)).
Proof. intros. unfold write_row. by rewrite decide_True. Qed.

Lemma write_row_ne io r : name r ≠ name io.1 → write_row gp io r = r.
Proof. intros. unfold write_row. by rewrite decide_False. Qed.

Lemma write_row_cells row out r :
  write_row gp (row, out) r =
    set_cell (name row) "PredictedSpecies" (VStr (species gp out.2))
      (set_cell (name row) "PredictedValue" (VNum out.2)
         (set_cell (name row) "Correct" (VBool out.1) r)).
Proof.
  destruct (decide (name r = name row)) as [E|E].
  - rewrite write_row_eq by done.
    rewrite (set_cell_eq _ "Correct") by done.
    rewrite (set_cell_eq _ "PredictedValue") by done.
    rewrite (set_cell_eq _ "PredictedSpecies") by done. simpl. by rewrite E.
  - rewrite write_row_ne by done.
    by rewrite (set_cell_ne _ "Correct"), (set_cell_ne _ "PredictedValue"),
      (set_cell_ne _ "PredictedSpecies").
Qed.

Lemma write_result_rows row out df :
  (∀ c, c ∈ derived → c ∈ columns df) → name row ∈ index df →
  write_result gp (name row) out df =
    mkDataFrame (columns df) (write_row gp (row, out) <$> rows df).
Proof.
  intros Hc Hi. unfold write_result.
  rewrite (at_set_cells _ "Correct") by auto using Correct_derived.
  rewrite (at_set_cells _ "PredictedValue"); simpl.
  2: { auto using PredictedValue_derived. }
  2: { unfold index; simpl. rewrite index_fmap; [done|].
       intros r. apply name_set_cell. }
  rewrite (at_set_cells _ "PredictedSpecies"); simpl.
  2: { auto using PredictedSpecies_derived. }
  2: { unfold index; simpl. rewrite !index_fmap; [done|..];
       intros r; apply name_set_cell. }
  f_equal. rewrite <- !list_fmap_compose. apply list_fmap_ext.
  intros _ r _. symmetry. apply write_row_cells.
Qed.

Lemma settle_cons io ios r :
  settle gp (io :: ios) r = settle gp ios (write_row gp io r).
Proof. done. Qed.

Lemma name_settle ios r : name (settle gp ios r) = name r.
Proof.
  revert r. induction ios as [|io ios IH]; intros r; [done|].
  rewrite settle_cons, IH. apply name_write_row.
Qed.

Lemma write_all_rows ios : ∀ df,
  (∀ c, c ∈ derived → c ∈ columns df) →
  Forall (λ io, name io.1 ∈ index df) ios →
  write_all gp ios df = mkDataFrame (columns df) (settle gp ios <$> rows df).
Proof.
  induction ios as [|[row out] ios IH]; intros df Hc Hi.
  - simpl. destruct df; simpl. by rewrite list_fmap_id.
  - apply Forall_cons in Hi as [Hrow Hi]. simpl in Hrow.
    change (write_all gp ((row, out) :: ios) df)
      with (write_all gp ios (write_result gp (name row) out df)).
    rewrite write_result_rows by done.
    rewrite IH; simpl; [|done|].
    + f_equal. by rewrite <- list_fmap_compose.
    + unfold index in *; simpl. rewrite index_fmap; [done|].
      apply name_write_row.
Qed.

(** ** The loop and the whole function *)

Lemma for_each_tabulate_row l its : ∀ h df s,
  for_each its (tabulate_row gp parse_tree l) (mkState (<[l := df]> h) s) =
    let '(s', outs, e) := evals gp parse_tree its s in
    (mkState (<[l := write_all gp (zip its outs) df]> h) s',
     match e with None => inr tt | Some e => inl e end).
Proof.
  induction its as [|row its IH]; intros h df s; [done|].
  simpl. unfold bind at 1. unfold tabulate_row at 1.
  unfold mbind, M_bind, bind, call; simpl.
  destruct (evaluate_row gp parse_tree row s) as [s1 [e|[correctness res]]];
    simpl; [done|].
  unfold update; simpl. rewrite !alter_insert_eq.
  rewrite IH. by destruct (evals gp parse_tree its s1) as [[s2 outs] e].
Qed.

(** [tabulate_results] in one equation: the new object is the copy with the
    derived columns, each row settled by the iterations that ran. *)
Lemma tabulate_results_run test_df (σ : state PState) df :
  heap σ !! test_df = Some df →
  tabulate_results gp parse_tree test_df σ =
    let test_results := fresh (dom (heap σ)) in
    let its := pending <$> rows df in
    let '(s', outs, e) := evals gp parse_tree its (predictor σ) in
    (mkState
       (<[test_results :=
            mkDataFrame (result_columns (columns df))
              (settle gp (zip its outs) <$> its)]> (heap σ)) s',
     match e with None => inr test_results | Some e => inl e end).
Proof.
  intros Hdf. unfold tabulate_results, mbind, M_bind, bind, copy, update, read;
    simpl.
  rewrite (lookup_total_correct _ _ _ Hdf), !alter_insert_eq.
  rewrite lookup_total_insert_eq, setitem_derived. unfold iterrows; simpl.
  rewrite for_each_tabulate_row.
  destruct (evals gp parse_tree (pending <$> rows df) (predictor σ))
    as [[s' outs] e].
  rewrite write_all_rows; simpl.
  - by destruct e.
  - apply derived_result_columns.
  - apply Forall_forall. intros [row out] Hin; simpl.
    unfold index; simpl. apply list_elem_of_fmap_2.
    by apply elem_of_zip_l in Hin.
Qed.
End Writes.

(** ** The cells of a settled row *)

Section Cells.
Context {ParseTree PState exn : Type}.
Variable gp : IrisGP ParseTree PState exn.
Variable parse_tree : ParseTree.

Lemma fill_lookup_Correct out m : fill gp out m !! "Correct" = Some (VBool out.1).
Proof. unfold fill. by rewrite !lookup_insert. Qed.

Lemma fill_lookup_PredictedValue out m :
  fill gp out m !! "PredictedValue" = Some (VNum out.2).
Proof. unfold fill. by rewrite !lookup_insert. Qed.

Lemma fill_lookup_PredictedSpecies out m :
  fill gp out m !! "PredictedSpecies" = Some (VStr (species gp out.2)).
Proof. unfold fill. by rewrite !lookup_insert. Qed.

Lemma fill_lookup_other out m c : c ∉ derived → fill gp out m !! c = m !! c.
Proof.
  rewrite elem_of_derived. intros Hc. unfold fill.
  rewrite !lookup_insert_ne; [done|..]; intros <-; tauto.
Qed.

Lemma fill_fill out1 out2 m : fill gp out2 (fill gp out1 m) = fill gp out2 m.
Proof.
  apply map_eq. intros c. destruct (decide (c ∈ derived)) as [Hc|Hc].
  - apply elem_of_derived in Hc as [->|[->| ->]].
    + by rewrite !fill_lookup_Correct.
    + by rewrite !fill_lookup_PredictedValue.
    + by rewrite !fill_lookup_PredictedSpecies.
  - by rewrite !fill_lookup_other.
Qed.

Lemma pending_lookup_other r c : c ∉ derived → data (pending r) !! c = data r !! c.
Proof.
  rewrite elem_of_derived. intros Hc. unfold pending; simpl.
  rewrite !lookup_insert_ne; [done|..]; intros <-; tauto.
Qed.

Lemma fill_pending out r : fill gp out (data (pending r)) = fill gp out (data r).
Proof.
  apply map_eq. intros c. destruct (decide (c ∈ derived)) as [Hc|Hc].
  - apply elem_of_derived in Hc as [->|[->| ->]].
    + by rewrite !fill_lookup_Correct.
    + by rewrite !fill_lookup_PredictedValue.
    + by rewrite !fill_lookup_PredictedSpecies.
  - by rewrite !fill_lookup_other, pending_lookup_other.
Qed.

Lemma dom_fill out m : dom (fill gp out m) = dom m ∪ list_to_set derived.
Proof.
  apply set_eq. intros c. unfold fill.
  rewrite !dom_insert_L, !elem_of_union, elem_of_list_to_set, elem_of_derived.
  rewrite !elem_of_singleton. tauto.
Qed.

Lemma write_row_lookup_other io r c :
  c ∉ derived → data (write_row gp io r) !! c = data r !! c.
Proof.
  intros Hc. unfold write_row. case_decide; [|done]. by apply fill_lookup_other.
Qed.

Lemma settle_lookup_other ios : ∀ r c,
  c ∉ derived → data (settle gp ios r) !! c = data r !! c.
Proof.
  induction ios as [|io ios IH]; intros r c Hc; [done|].
  rewrite settle_cons, IH by done. by apply write_row_lookup_other.
Qed.

Lemma settle_app ios1 ios2 r :
  settle gp (ios1 ++ ios2) r = settle gp ios2 (settle gp ios1 r).
Proof. apply foldl_app. Qed.

(** No iteration carries the label of [r]: the row stays as it is. *)
Lemma settle_unmatched ios : ∀ r,
  name r ∉ (name ∘ fst) <$> ios → settle gp ios r = r.
Proof.
  induction ios as [|io ios IH]; intros r Hr; [done|].
  rewrite fmap_cons, not_elem_of_cons in Hr. destruct Hr as [Hio Hr].
  rewrite settle_cons, write_row_ne by done. by apply IH.
Qed.

(** Some iteration carries the label of [r]: the derived cells of [r] are
    those of one such iteration, the other cells are untouched. *)
Lemma settle_matched ios : ∀ r,
  name r ∈ (name ∘ fst) <$> ios →
  ∃ io, io ∈ ios ∧ name io.1 = name r
        ∧ settle gp ios r = mkSeries (name r) (fill gp io.2 (data r)).
Proof.
  induction ios as [|io ios IH]; intros r Hr.
  { by apply elem_of_nil in Hr. }
  rewrite settle_cons.
  destruct (decide (name r ∈ (name ∘ fst) <$> ios)) as [Hin|Hin].
  - destruct (IH (write_row gp io r)) as (io' & Hio' & Hname & Heq).
    { by rewrite name_write_row. }
    rewrite name_write_row in Hname, Heq.
    exists io'. split_and!; [by right|done|]. rewrite Heq. f_equal.
    unfold write_row. case_decide; [simpl; apply fill_fill|done].
  - rewrite fmap_cons, elem_of_cons in Hr. destruct Hr as [Hr|Hr]; [|done].
    simpl in Hr. exists io. split_and!; [by left|done|].
    rewrite settle_unmatched by (by rewrite name_write_row).
    by apply write_row_eq.
Qed.

(** With pairwise distinct labels, the iteration of a row is the only one
    that writes to it. *)
Lemma settle_own its outs i r out :
  NoDup (name <$> its) → length outs = length its →
  its !! i = Some r → outs !! i = Some out →
  settle gp (zip its outs) r = mkSeries (name r) (fill gp out (data r)).
Proof.
  intros Hnd Hlen Hr Hout.
  assert (Hi : (i < length its)%nat) by (by eapply lookup_lt_Some).
  rewrite <- (take_drop_middle its i r Hr) in Hnd |- *.
  rewrite <- (take_drop_middle outs i out Hout).
  rewrite fmap_app, fmap_cons in Hnd.
  apply NoDup_app in Hnd as (_ & Hpre & Hpost).
  apply NoDup_cons in Hpost as [Hpost _].
  rewrite zip_with_app by (rewrite !length_take; lia).
  simpl. rewrite settle_app, settle_cons.
  assert (Hbefore : settle gp (zip (take i its) (take i outs)) r = r).
  { apply settle_unmatched.
    rewrite list_fmap_compose, fst_zip by (rewrite !length_take; lia).
    intros Hin. apply (Hpre _ Hin). by left. }
  rewrite Hbefore, write_row_eq by done. simpl.
  apply settle_unmatched; simpl.
  by rewrite list_fmap_compose, fst_zip by (rewrite !length_drop; lia).
Qed.
End Cells.

(** ** The calls of the predictor *)

Section Calls.
Context {ParseTree PState exn : Type}.
Variable gp : IrisGP ParseTree PState exn.
Variable parse_tree : ParseTree.

Lemma evals_length its : ∀ s s' outs e,
  evals gp parse_tree its s = (s', outs, e) →
  match e with
  | None => length outs = length its
  | Some _ => (length outs < length its)%nat
  end.
Proof.
  induction its as [|row its IH]; intros s s' outs e; simpl.
  { by intros [= <- <- <-]. }
  destruct (evaluate_row gp parse_tree row s) as [s1 [e1|out]].
  { intros [= <- <- <-]. simpl. lia. }
  destruct (evals gp parse_tree its s1) as [[s2 outs2] e2] eqn:Hrest.
  intros [= <- <- <-]. apply IH in Hrest. destruct e2; simpl; lia.
Qed.

Lemma evals_app its1 its2 s :
  evals gp parse_tree (its1 ++ its2) s =
    let '(s1, outs1, e1) := evals gp parse_tree its1 s in
    match e1 with
    | Some e => (s1, outs1, Some e)
    | None =>
        let '(s2, outs2, e2) := evals gp parse_tree its2 s1 in
        (s2, (outs1 ++ outs2)%list, e2)
    end.
Proof.
  revert s. induction its1 as [|row its1 IH]; intros s; simpl.
  { by destruct (evals gp parse_tree its2 s) as [[??]?]. }
  destruct (evaluate_row gp parse_tree row s) as [s1 [e1|out]]; [done|].
  rewrite IH. destruct (evals gp parse_tree its1 s1) as [[s2 outs1] [e|]];
    [done|].
  by destruct (evals gp parse_tree its2 s2) as [[??]?].
Qed.

(** Every result that was written is an answer of the predictor on the row
    it is paired with. *)
Lemma evals_answers its : ∀ s s' outs e io,
  evals gp parse_tree its s = (s', outs, e) → io ∈ zip its outs →
  ∃ s0 s1, evaluate_row gp parse_tree io.1 s0 = (s1, inr io.2).
Proof.
  induction its as [|row its IH]; intros s s' outs e io; simpl.
  { intros _ Hin. by apply elem_of_nil in Hin. }
  destruct (evaluate_row gp parse_tree row s) as [s1 [e1|out]] eqn:Hrow.
  { intros [= <- <- <-] Hin. by apply elem_of_nil in Hin. }
  destruct (evals gp parse_tree its s1) as [[s2 outs2] e2] eqn:Hrest.
  intros [= <- <- <-]. simpl. rewrite elem_of_cons. intros [->|Hin].
  - by exists s, s1.
  - by eapply IH.
Qed.

(** The tabulator of the specification, by the calls of the predictor. *)
Lemma tabulate_evals records : ∀ s,
  tabulate gp parse_tree records s =
    let '(s', outs, e) := evals gp parse_tree records s in
    (s', match e with
         | Some e => inl e
         | None => inr (zip_with (result_record gp) records outs)
         end).
Proof.
  induction records as [|r records IH]; intros s; [done|].
  cbn [tabulate evals].
  destruct (evaluate_row gp parse_tree r s) as [s1 [e1|out]]; [done|].
  rewrite IH.
  by destruct (evals gp parse_tree records s1) as [[s2 outs] [e|]].
Qed.

(** For a predictor that does not look at the derived cells, the calls on
    the rows of the loop are the calls on the records. *)
Lemma evals_pending records : ∀ s,
  ignores_derived gp →
  evals gp parse_tree (pending <$> records) s = evals gp parse_tree records s.
Proof.
  intros s Hign. revert s.
  induction records as [|r records IH]; intros s; [done|].
  rewrite fmap_cons. cbn [evals]. rewrite Hign.
  destruct (evaluate_row gp parse_tree r s) as [s1 [e1|out]]; [done|].
  by rewrite IH.
Qed.

(** A deterministic predictor gives the same answers from any state. *)
Lemma evals_deterministic its : ∀ s1 s2,
  deterministic gp →
  (evals gp parse_tree its s1).1.2 = (evals gp parse_tree its s2).1.2
  ∧ (evals gp parse_tree its s1).2 = (evals gp parse_tree its s2).2.
Proof.
  intros s1 s2 Hdet. revert s1 s2.
  induction its as [|row its IH]; intros s1 s2; simpl; [done|].
  pose proof (Hdet parse_tree row s1 s2) as Hrow.
  destruct (evaluate_row gp parse_tree row s1) as [s1' [e1|out1]],
    (evaluate_row gp parse_tree row s2) as [s2' [e2|out2]];
    simpl in Hrow; try discriminate.
  { by injection Hrow as ->. }
  injection Hrow as ->. specialize (IH s1' s2').
  destruct (evals gp parse_tree its s1') as [[??]?],
    (evals gp parse_tree its s2') as [[??]?]. simpl in *.
  destruct IH as [-> ->]. done.
Qed.

(** The log of the predictor: the rows it was called on, in order, the row
    on which it raised included. *)
Lemma evals_with_log its : ∀ s log,
  evals (with_log gp) parse_tree its (s, log) =
    let '(s', outs, e) := evals gp parse_tree its s in
    ((s', (log ++ take (length outs + match e with Some _ => 1 | None => 0 end) its)%list), outs, e).
Proof.
  induction its as [|row its IH]; intros s log; simpl.
  { by rewrite (right_id_L [] (++)). }
  destruct (evaluate_row gp parse_tree row s) as [s1 [e1|out]]; [done|].
  rewrite IH. destruct (evals gp parse_tree its s1) as [[s2 outs] e]; simpl.
  by rewrite <- (assoc_L (++)).
Qed.

Lemma species_with_log res : species (with_log gp) res = species gp res.
Proof. done. Qed.

Lemma settle_with_log ios r : settle (with_log gp) ios r = settle gp ios r.
Proof. done. Qed.
End Calls.

(** ** The result table *)

Section Table.
Context {ParseTree PState exn : Type}.
Variable gp : IrisGP ParseTree PState exn.
Variable parse_tree : ParseTree.

(** A run that returns: the predictor answered on every row, and the table
    is the new object. *)
Lemma tabulate_results_returns test_df (σ σ' : state PState) df test_results :
  heap σ !! test_df = Some df →
  tabulate_results gp parse_tree test_df σ = (σ', inr test_results) →
  ∃ outs,
    evals gp parse_tree (pending <$> rows df) (predictor σ)
      = (predictor σ', outs, None)
    ∧ length outs = length (rows df)
    ∧ test_results = fresh (dom (heap σ))
    ∧ heap σ' =
        <[test_results :=
            mkDataFrame (result_columns (columns df))
              (settle gp (zip (pending <$> rows df) outs)
                 <$> (pending <$> rows df))]> (heap σ).
Proof.
  intros Hdf. rewrite (tabulate_results_run _ _ _ _ _ Hdf); simpl.
  destruct (evals gp parse_tree (pending <$> rows df) (predictor σ))
    as [[s' outs] [e|]] eqn:Hevals; [done|].
  intros [= <- <-]. exists outs. split_and!; try done.
  apply evals_length in Hevals. by rewrite length_fmap in Hevals.
Qed.

(** After a run that returns, each row holds its own cells and the three
    cells of one answer of the predictor on a row with the same label. *)
Lemma settled_row records outs r :
  length outs = length records → r ∈ records →
  ∃ io, io ∈ zip (pending <$> records) outs ∧ name io.1 = name r
    ∧ settle gp (zip (pending <$> records) outs) (pending r)
      = mkSeries (name r) (fill gp io.2 (data r)).
Proof.
  intros Hlen Hr.
  destruct (settle_matched gp (zip (pending <$> records) outs) (pending r))
    as (io & Hio & Hname & Heq).
  { rewrite list_fmap_compose, fst_zip by (rewrite length_fmap; lia).
    by apply list_elem_of_fmap_2, list_elem_of_fmap_2. }
  exists io. split_and!; [done|done|]. by rewrite Heq, fill_pending.
Qed.

(** C2. For every input sequence of N test records, [tabulate_results]
    returns N result records in the order of the input (same index labels,
    position by position), and in each result record every field of the
    input record is unchanged; only the three derived fields are added. *)
Theorem tabulate_results_keeps_records test_df (σ σ' : state PState) df
    test_results :
  heap σ !! test_df = Some df → test_records df →
  tabulate_results gp parse_tree test_df σ = (σ', inr test_results) →
  ∃ table,
    heap σ' !! test_results = Some table
    ∧ length (rows table) = length (rows df)
    ∧ index table = index df
    ∧ ∀ i r, rows df !! i = Some r →
        ∃ r', rows table !! i = Some r'
          ∧ name r' = name r
          ∧ (∀ c v, data r !! c = Some v → data r' !! c = Some v)
          ∧ dom (data r') = dom (data r) ∪ list_to_set derived.
Proof.
  intros Hdf Htest Hrun.
  destruct (tabulate_results_returns _ _ _ _ _ Hdf Hrun)
    as (outs & Hevals & Hlen & -> & Hheap).
  eexists. split; [by rewrite Hheap, lookup_insert_eq|]. simpl.
  split; [by rewrite !length_fmap|].
  split.
  { unfold index; simpl. rewrite !index_fmap; [done|done|].
    intros r. apply name_settle. }
  intros i r Hr. eexists. split.
  { by rewrite !list_lookup_fmap, Hr. }
  split; [by rewrite name_settle|].
  split.
  - intros c v Hc. rewrite settle_lookup_other, pending_lookup_other; [done|..].
    all: intros Hd; eapply list_elem_of_lookup_2 in Hr;
      unfold test_records in Htest; rewrite Forall_forall in Htest;
      specialize (Htest r Hr); rewrite Forall_forall in Htest;
      rewrite (Htest c Hd) in Hc; discriminate.
  - destruct (settled_row (rows df) outs r Hlen) as (io & _ & _ & ->).
    { by eapply list_elem_of_lookup_2. }
    apply dom_fill.
Qed.

(** Fields that are not derived columns are copied whatever the dataset. *)
Lemma tabulate_results_other_fields test_df (σ σ' : state PState) df res i r c :
  heap σ !! test_df = Some df →
  tabulate_results gp parse_tree test_df σ = (σ', res) →
  rows df !! i = Some r → c ∉ derived →
  ∃ table r', heap σ' !! fresh (dom (heap σ)) = Some table
    ∧ rows table !! i = Some r' ∧ data r' !! c = data r !! c.
Proof.
  intros Hdf Hrun Hr Hc. rewrite (tabulate_results_run _ _ _ _ _ Hdf) in Hrun.
  simpl in Hrun.
  destruct (evals gp parse_tree (pending <$> rows df) (predictor σ))
    as [[s' outs] e]. injection Hrun as <- _. simpl.
  eexists _, _. split; [by rewrite lookup_insert_eq|]. simpl.
  split; [by rewrite !list_lookup_fmap, Hr|].
  by rewrite settle_lookup_other, pending_lookup_other.
Qed.

(** C7. Tabulation leaves its input alone: after [tabulate_results], whether
    it returns or raises, the caller's dataset and every object that existed
    before hold what they held; the only change to the store is the one new
    object, the table under construction. *)
Theorem tabulate_results_leaves_input test_df (σ σ' : state PState) df res :
  heap σ !! test_df = Some df →
  tabulate_results gp parse_tree test_df σ = (σ', res) →
  heap σ' !! test_df = Some df
  ∧ (∀ l, l ∈ dom (heap σ) → heap σ' !! l = heap σ !! l)
  ∧ ∃ new table,
      (new ∉ dom (heap σ))
      ∧ heap σ' = <[new := table]> (heap σ)
      ∧ (∀ test_results, res = inr test_results → test_results = new).
Proof.
  intros Hdf. rewrite (tabulate_results_run _ _ _ _ _ Hdf); simpl.
  destruct (evals gp parse_tree (pending <$> rows df) (predictor σ))
    as [[s' outs] e].
  intros [= <- <-]; simpl.
  pose proof (is_fresh (dom (heap σ))) as Hfresh.
  assert (Hother : ∀ l, l ∈ dom (heap σ) →
            <[fresh (dom (heap σ)) :=
                mkDataFrame (result_columns (columns df))
                  (settle gp (zip (pending <$> rows df) outs)
                     <$> (pending <$> rows df))]> (heap σ) !! l
            = heap σ !! l).
  { intros l Hl. apply lookup_insert_ne. by intros <-. }
  split_and!.
  - rewrite Hother; [done|]. apply elem_of_dom. by eexists.
  - done.
  - eexists _, _. split_and!; [done|done|]. intros l. by destruct e; intros [= <-].
Qed.

(** C6. On an empty input sequence [tabulate_results] returns an empty
    table, does not call the predictor (its state and its log of calls are
    as before) and does not raise. *)
Theorem tabulate_results_empty test_df (σ : state PState) df :
  heap σ !! test_df = Some df → rows df = [] →
  let test_results := fresh (dom (heap σ)) in
  let table := mkDataFrame (result_columns (columns df)) [] in
  tabulate_results gp parse_tree test_df σ
    = (mkState (<[test_results := table]> (heap σ)) (predictor σ),
       inr test_results)
  ∧ tabulate_results (with_log gp) parse_tree test_df
      (mkState (heap σ) (predictor σ, []))
    = (mkState (<[test_results := table]> (heap σ)) (predictor σ, []),
       inr test_results).
Proof.
  intros Hdf Hrows. simpl. split.
  - rewrite (tabulate_results_run _ _ _ _ _ Hdf). by rewrite Hrows.
  - rewrite (tabulate_results_run _ _ _ _ df); [|done]. by rewrite Hrows.
Qed.
End Table.

(** ** The table against the specification's tabulator *)

Section Refinement.
Context {ParseTree PState exn : Type}.
Variable gp : IrisGP ParseTree PState exn.
Variable parse_tree : ParseTree.

Lemma result_record_fill r out :
  result_record gp r out = mkSeries (name r) (fill gp out (data r)).
Proof. done. Qed.

(** With pairwise distinct labels the settled rows are the result records. *)
Lemma settle_rows_NoDup records outs :
  NoDup (name <$> records) → length outs = length records →
  settle gp (zip (pending <$> records) outs) <$> (pending <$> records)
  = zip_with (result_record gp) records outs.
Proof.
  intros Hnd Hlen. apply list_eq. intros i.
  rewrite !list_lookup_fmap, lookup_zip_with.
  destruct (records !! i) as [r|] eqn:Hr; [|done]. simpl.
  destruct (outs !! i) as [out|] eqn:Hout; simpl.
  - f_equal. rewrite result_record_fill, <- fill_pending.
    apply (settle_own gp (pending <$> records) outs i (pending r) out).
    + by rewrite index_fmap.
    + by rewrite length_fmap.
    + by rewrite list_lookup_fmap, Hr.
    + done.
  - apply lookup_ge_None in Hout. apply lookup_lt_Some in Hr. lia.
Qed.

Lemma tabulate_returns records s s' table :
  tabulate gp parse_tree records s = (s', inr table) →
  ∃ outs, evals gp parse_tree records s = (s', outs, None)
          ∧ length outs = length records
          ∧ table = zip_with (result_record gp) records outs.
Proof.
  rewrite tabulate_evals.
  destruct (evals gp parse_tree records s)
    as [[s1 outs] [e|]] eqn:Hevals; [done|].
  intros [= <- <-]. exists outs. split_and!; [done| |done].
  by apply evals_length in Hevals.
Qed.

(** X16. With a predictor that does not look at the derived cells: when the
    specification's tabulator returns a table for the records,
    [tabulate_results] calls the predictor exactly once per record, in
    input order (the log of the calls is the sequence of the rows, each
    with its three derived cells still [None]); and when the index labels
    are pairwise distinct, the table it builds is the one of the
    specification's tabulator: each result record has the fields of its
    input record, then [Correct] (the predictor's boolean),
    [PredictedValue] (the predictor's number) and [PredictedSpecies] (the
    class of that number). *)
Theorem tabulate_results_refines_tabulate test_df (σ : state PState) df s' table :
  heap σ !! test_df = Some df →
  ignores_derived gp →
  tabulate gp parse_tree (rows df) (predictor σ) = (s', inr table) →
  let test_results := fresh (dom (heap σ)) in
  (∃ h', tabulate_results (with_log gp) parse_tree test_df
           (mkState (heap σ) (predictor σ, []))
         = (mkState h' (s', pending <$> rows df), inr test_results))
  ∧ (NoDup (index df) →
     tabulate_results gp parse_tree test_df σ
     = (mkState
          (<[test_results := mkDataFrame (result_columns (columns df)) table]>
             (heap σ)) s',
        inr test_results)).
Proof.
  intros Hdf Hign (outs & Hevals & Hlen & ->)%tabulate_returns.
  rewrite <- (evals_pending _ _ _ _ Hign) in Hevals. simpl. split.
  - rewrite (tabulate_results_run _ _ _ _ df); [|done]. simpl.
    rewrite evals_with_log, Hevals, Nat.add_0_r.
    rewrite firstn_all2 by (rewrite length_fmap; lia). by eexists.
  - intros Hnd. rewrite (tabulate_results_run _ _ _ _ _ Hdf). simpl.
    rewrite Hevals. by rewrite settle_rows_NoDup.
Qed.

(** ** Exceptions *)

Lemma evals_raises before r after s s1 s2 outs e :
  evals gp parse_tree (pending <$> before) s = (s1, outs, None) →
  evaluate_row gp parse_tree (pending r) s1 = (s2, inl e) →
  evals gp parse_tree (pending <$> (before ++ r :: after)%list) s
  = (s2, outs, Some e).
Proof.
  intros Hbefore Hr. rewrite fmap_app, fmap_cons, evals_app, Hbefore.
  cbn [evals]. rewrite Hr. by rewrite (right_id_L [] (++)).
Qed.

(** C3. If the predictor raises on a record, [tabulate_results] raises the
    very exception of the predictor, at once: the predictor is not called
    again on that record nor on a later one, and no table is returned;
    [__init__] raises too, so no object holding a table comes to exist. *)
Theorem tabulate_results_propagates test_df (σ : state PState) df
    before r after s1 outs s2 e :
  heap σ !! test_df = Some df →
  rows df = (before ++ r :: after)%list →
  evals gp parse_tree (pending <$> before) (predictor σ) = (s1, outs, None) →
  evaluate_row gp parse_tree (pending r) s1 = (s2, inl e) →
  (∃ h', tabulate_results gp parse_tree test_df σ = (mkState h' s2, inl e)
         ∧ init gp parse_tree test_df σ = (mkState h' s2, inl e))
  ∧ (∃ h', tabulate_results (with_log gp) parse_tree test_df
             (mkState (heap σ) (predictor σ, []))
           = (mkState h' (s2, pending <$> (before ++ [r])%list), inl e)).
Proof.
  intros Hdf Hrows Hbefore Hr.
  pose proof (evals_raises _ _ after _ _ _ _ _ Hbefore Hr) as Hevals.
  rewrite <- Hrows in Hevals. split.
  - eexists. unfold init, mbind, M_bind, bind.
    rewrite (tabulate_results_run _ _ _ _ _ Hdf). simpl.
    by rewrite Hevals.
  - rewrite (tabulate_results_run _ _ _ _ df); [|done]. simpl.
    rewrite evals_with_log, Hevals. eexists. do 2 f_equal. simpl. f_equal.
    apply evals_length in Hbefore. rewrite length_fmap in Hbefore.
    rewrite Hrows, !fmap_app, fmap_cons. simpl.
    rewrite cons_middle, (assoc_L (++)). apply take_app_length'.
    rewrite length_app, length_fmap. simpl. lia.
Qed.

(** ** Two runs *)

(** The dataset is still there after a call. *)
Lemma tabulate_results_dataset test_df (σ σ' : state PState) df res :
  heap σ !! test_df = Some df →
  tabulate_results gp parse_tree test_df σ = (σ', res) →
  heap σ' !! test_df = Some df.
Proof.
  intros Hdf. rewrite (tabulate_results_run _ _ _ _ _ Hdf); simpl.
  destruct (evals gp parse_tree (pending <$> rows df) (predictor σ))
    as [[s' outs] e].
  intros [= <- <-]; simpl. rewrite lookup_insert_ne; [done|].
  intros E. apply (is_fresh (dom (heap σ))). rewrite E.
  apply elem_of_dom. by eexists.
Qed.

(** C9. With a deterministic predictor, calling [tabulate_results] twice on
    the same dataset gives two tables with the same contents, held by two
    different objects; if the first call raises, the second raises the same
    exception. *)
Theorem tabulate_results_twice test_df (σ σ1 σ2 : state PState) df res1 res2 :
  deterministic gp →
  heap σ !! test_df = Some df →
  tabulate_results gp parse_tree test_df σ = (σ1, res1) →
  tabulate_results gp parse_tree test_df σ1 = (σ2, res2) →
  match res1, res2 with
  | inr table1, inr table2 =>
      table1 ≠ table2
      ∧ ∃ table, heap σ2 !! table1 = Some table ∧ heap σ2 !! table2 = Some table
  | inl e1, inl e2 => e1 = e2
  | _, _ => False
  end.
Proof.
  intros Hdet Hdf Hrun1.
  pose proof (tabulate_results_dataset _ _ _ _ _ Hdf Hrun1) as Hdf1.
  rewrite (tabulate_results_run _ _ _ _ _ Hdf) in Hrun1.
  rewrite (tabulate_results_run _ _ _ _ _ Hdf1). simpl in *.
  destruct (evals_deterministic gp parse_tree (pending <$> rows df)
              (predictor σ) (predictor σ1) Hdet) as [Houts He].
  destruct (evals gp parse_tree (pending <$> rows df) (predictor σ))
    as [[s1 outs1] e1].
  destruct (evals gp parse_tree (pending <$> rows df) (predictor σ1))
    as [[s2 outs2] e2]. simpl in *. subst outs2 e2.
  injection Hrun1 as <- <-. intros [= <- <-]. simpl in *.
  destruct e1 as [e|]; [done|].
  set (table1 := fresh (dom (heap σ))).
  set (T := mkDataFrame _ _).
  set (table2 := fresh (dom (<[table1 := T]> (heap σ)))).
  assert (Hne : table1 ≠ table2).
  { intros E. apply (is_fresh (dom (<[table1 := T]> (heap σ)))).
    fold table2. rewrite <- E, dom_insert_L.
    apply elem_of_union_l. by apply elem_of_singleton. }
  split; [done|]. exists T. split; [|by rewrite lookup_insert_eq].
  by rewrite lookup_insert_ne, lookup_insert_eq.
Qed.
End Refinement.

(** ** What the derived cells depend on *)

Section Dependence.
Context {ParseTree PState exn : Type}.
Variable gp : IrisGP ParseTree PState exn.
Variable parse_tree : ParseTree.

(** The cells of a row of the table: its three derived cells are the
    answer of the predictor on a row of the dataset with the same label. *)
Lemma table_row_cells test_df (σ σ' : state PState) df test_results :
  heap σ !! test_df = Some df →
  tabulate_results gp parse_tree test_df σ = (σ', inr test_results) →
  ∃ table,
    heap σ' !! test_results = Some table
    ∧ ∀ r, r ∈ rows table →
        ∃ row s0 s1 correct score,
          row ∈ pending <$> rows df
          ∧ name row = name r
          ∧ evaluate_row gp parse_tree row s0 = (s1, inr (correct, score))
          ∧ data r !! "Correct" = Some (VBool correct)
          ∧ data r !! "PredictedValue" = Some (VNum score)
          ∧ data r !! "PredictedSpecies" = Some (VStr (species gp score)).
Proof.
  intros Hdf Hrun.
  destruct (tabulate_results_returns _ _ _ _ _ _ _ Hdf Hrun)
    as (outs & Hevals & Hlen & -> & Hheap).
  eexists. split; [by rewrite Hheap, lookup_insert_eq|]. simpl.
  intros r (r1 & -> & (r0 & -> & Hr0)%list_elem_of_fmap)%list_elem_of_fmap.
  destruct (settled_row gp (rows df) outs r0 Hlen Hr0)
    as ([row [correct score]] & Hio & Hname & ->).
  destruct (evals_answers _ _ _ _ _ _ _ _ Hevals Hio) as (s0 & s1 & Hcall).
  exists row, s0, s1, correct, score. simpl in *.
  split_and!; [by eapply elem_of_zip_l|done|done|..].
  - apply fill_lookup_Correct.
  - apply fill_lookup_PredictedValue.
  - apply fill_lookup_PredictedSpecies.
Qed.

(** Rows with the same score get the same class, whatever their other
    cells. *)
Lemma table_same_score_same_class test_df (σ σ' : state PState) df test_results
    table r1 r2 score1 score2 :
  heap σ !! test_df = Some df →
  tabulate_results gp parse_tree test_df σ = (σ', inr test_results) →
  heap σ' !! test_results = Some table →
  r1 ∈ rows table → r2 ∈ rows table →
  data r1 !! "PredictedValue" = Some (VNum score1) →
  data r2 !! "PredictedValue" = Some (VNum score2) →
  same_score score1 score2 →
  data r1 !! "PredictedSpecies" = data r2 !! "PredictedSpecies".
Proof.
  intros Hdf Hrun Htable Hr1 Hr2 Hs1 Hs2 Hsame.
  destruct (table_row_cells _ _ _ _ _ Hdf Hrun) as (table' & Htable' & Hrows).
  rewrite Htable in Htable'. injection Htable' as <-.
  destruct (Hrows r1 Hr1) as (_ & _ & _ & _ & s1 & _ & _ & _ & _ & Hv1 & ->).
  destruct (Hrows r2 Hr2) as (_ & _ & _ & _ & s2 & _ & _ & _ & _ & Hv2 & ->).
  rewrite Hs1 in Hv1. rewrite Hs2 in Hv2.
  injection Hv1 as <-. injection Hv2 as <-.
  by rewrite (species_same_score gp _ _ Hsame).
Qed.

(** The thresholds of [gp2] may differ from those of [gp]; the predictor is
    the same. *)
Variable gp2 : IrisGP ParseTree PState exn.
Hypothesis same_predictor :
  ∀ pt row s, evaluate_row gp2 pt row s = evaluate_row gp pt row s.

Lemma evals_same_predictor its :
  ∀ s, evals gp2 parse_tree its s = evals gp parse_tree its s.
Proof.
  induction its as [|row its IH]; intros s; simpl; [done|].
  rewrite same_predictor.
  destruct (evaluate_row gp parse_tree row s) as [s1 [e|out]]; [done|].
  by rewrite IH.
Qed.

Lemma write_row_same_but_class io r1 r2 :
  same_but_class r1 r2 →
  same_but_class (write_row gp io r1) (write_row gp2 io r2).
Proof.
  intros [Hname Hcells]. unfold write_row. rewrite <- Hname.
  case_decide; [|done]. split; [done|]. simpl. intros c Hc.
  unfold fill. rewrite !(lookup_insert_ne _ "PredictedSpecies") by done.
  rewrite !(lookup_insert _ "PredictedValue"). case_decide; [done|].
  rewrite !(lookup_insert _ "Correct"). case_decide; [done|]. by apply Hcells.
Qed.

Lemma settle_same_but_class ios : ∀ r1 r2,
  same_but_class r1 r2 →
  same_but_class (settle gp ios r1) (settle gp2 ios r2).
Proof.
  induction ios as [|io ios IH]; intros r1 r2 Hr; [done|].
  rewrite !settle_cons. by apply IH, write_row_same_but_class.
Qed.

(** Changing the thresholds changes no cell but the predicted class. *)
Lemma table_same_but_class test_df (σ σ' σ2 : state PState) df test_results
    table res2 :
  heap σ !! test_df = Some df →
  tabulate_results gp parse_tree test_df σ = (σ', inr test_results) →
  heap σ' !! test_results = Some table →
  tabulate_results gp2 parse_tree test_df σ = (σ2, res2) →
  ∃ table2,
    res2 = inr test_results
    ∧ heap σ2 !! test_results = Some table2
    ∧ Forall2 same_but_class (rows table) (rows table2).
Proof.
  intros Hdf Hrun Htable.
  destruct (tabulate_results_returns _ _ _ _ _ _ _ Hdf Hrun)
    as (outs & Hevals & Hlen & -> & Hheap).
  rewrite Hheap, lookup_insert_eq in Htable. injection Htable as <-.
  rewrite (tabulate_results_run _ _ _ _ _ Hdf). simpl.
  rewrite evals_same_predictor, Hevals. intros [= <- <-]. simpl.
  eexists. split; [done|]. split; [by rewrite lookup_insert_eq|]. simpl.
  apply Forall2_fmap, Forall_Forall2_diag, Forall_forall. intros r _.
  by apply settle_same_but_class.
Qed.
End Dependence.

Section Claims.
Context {ParseTree PState exn : Type}.
Variable gp : IrisGP ParseTree PState exn.
Variable parse_tree : ParseTree.

(** The cells of a row of the table, by the answers given in the run. *)
Lemma table_row_answers test_df (σ σ' : state PState) df test_results :
  heap σ !! test_df = Some df →
  tabulate_results gp parse_tree test_df σ = (σ', inr test_results) →
  ∃ table outs,
    heap σ' !! test_results = Some table
    ∧ index table = index df
    ∧ evals gp parse_tree (pending <$> rows df) (predictor σ)
      = (predictor σ', outs, None)
    ∧ ∀ r, r ∈ rows table →
        ∃ i row correct score,
          (pending <$> rows df) !! i = Some row
          ∧ outs !! i = Some (correct, score)
          ∧ name row = name r
          ∧ data r !! "Correct" = Some (VBool correct)
          ∧ data r !! "PredictedValue" = Some (VNum score)
          ∧ data r !! "PredictedSpecies" = Some (VStr (species gp score)).
Proof.
  intros Hdf Hrun.
  destruct (tabulate_results_returns _ _ _ _ _ _ _ Hdf Hrun)
    as (outs & Hevals & Hlen & -> & Hheap).
  eexists _, outs. split; [by rewrite Hheap, lookup_insert_eq|]. simpl.
  split.
  { unfold index; simpl. rewrite !index_fmap; [done|done|].
    intros r. apply name_settle. }
  split; [done|].
  intros r (r1 & -> & (r0 & -> & Hr0)%list_elem_of_fmap)%list_elem_of_fmap.
  destruct (settled_row gp (rows df) outs r0 Hlen Hr0)
    as ([row [correct score]] & Hio & Hname & ->).
  apply list_elem_of_lookup_1 in Hio as [i Hi].
  apply lookup_zip_with_Some in Hi as (row' & out' & [= <- <-] & Hrow & Hout).
  exists i, row, correct, score. simpl in *.
  split_and!; [done|done|done|..].
  - apply fill_lookup_Correct.
  - apply fill_lookup_PredictedValue.
  - apply fill_lookup_PredictedSpecies.
Qed.

(** X17. For any dataset, when [tabulate_results] returns: the table has the
    index of the dataset; in every row the [PredictedSpecies] cell is the
    class of the number in the [PredictedValue] cell, and the [Correct] and
    [PredictedValue] cells are one of the answers that the predictor gave
    in this run, on a row with that index label; two rows with the same
    score have the same class, whatever their other cells; and with other
    thresholds and the same predictor every cell but the class is the
    same. *)
Theorem class_depends_on_score_only test_df (σ σ' : state PState) df
    test_results :
  heap σ !! test_df = Some df →
  tabulate_results gp parse_tree test_df σ = (σ', inr test_results) →
  ∃ table outs,
    heap σ' !! test_results = Some table
    ∧ index table = index df
    ∧ evals gp parse_tree (pending <$> rows df) (predictor σ)
      = (predictor σ', outs, None)
    ∧ (∀ r, r ∈ rows table →
         ∃ i row correct score,
           (pending <$> rows df) !! i = Some row
           ∧ outs !! i = Some (correct, score)
           ∧ name row = name r
           ∧ data r !! "Correct" = Some (VBool correct)
           ∧ data r !! "PredictedValue" = Some (VNum score)
           ∧ data r !! "PredictedSpecies" = Some (VStr (species gp score)))
    ∧ (∀ r1 r2 score1 score2,
         r1 ∈ rows table → r2 ∈ rows table →
         data r1 !! "PredictedValue" = Some (VNum score1) →
         data r2 !! "PredictedValue" = Some (VNum score2) →
         same_score score1 score2 →
         data r1 !! "PredictedSpecies" = data r2 !! "PredictedSpecies")
    ∧ (∀ (gp2 : IrisGP ParseTree PState exn) σ2 res2,
         (∀ pt row s, evaluate_row gp2 pt row s = evaluate_row gp pt row s) →
         tabulate_results gp2 parse_tree test_df σ = (σ2, res2) →
         ∃ table2,
           res2 = inr test_results
           ∧ heap σ2 !! test_results = Some table2
           ∧ Forall2 same_but_class (rows table) (rows table2)).
Proof.
  intros Hdf Hrun.
  destruct (table_row_answers _ _ _ _ _ Hdf Hrun)
    as (table & outs & Htable & Hindex & Hevals & Hrows).
  exists table, outs. split_and!; [done|done|done|done|..].
  - intros r1 r2 score1 score2.
    by apply (table_same_score_same_class gp parse_tree _ _ _ _ _ _ _ _ _ _
                Hdf Hrun Htable).
  - intros gp2 σ2 res2 Hsame.
    by apply (table_same_but_class gp parse_tree gp2 Hsame _ _ _ _ _ _ _ _
                Hdf Hrun Htable).
Qed.

(** C10. For every score of the predictor, the class string produced by the
    thresholds is a key of [COLOR_MAP], whose keys are exactly the three
    species names; so [COLOR_MAP[row["PredictedSpecies"]]] succeeds on every
    row of a table returned by [tabulate_results]. *)
Theorem predicted_species_has_color (res : number) :
  dom COLOR_MAP
    = ({[ "Iris-setosa"; "Iris-versicolor"; "Iris-virginica" ]} : gset string)
  ∧ species gp res ∈ dom COLOR_MAP
  ∧ is_Some (color_of (VStr (species gp res)))
  ∧ ∀ test_df (σ σ' : state PState) df test_results,
      heap σ !! test_df = Some df →
      tabulate_results gp parse_tree test_df σ = (σ', inr test_results) →
      ∃ table,
        heap σ' !! test_results = Some table
        ∧ ∀ r, r ∈ rows table →
            ∃ predicted,
              data r !! "PredictedSpecies" = Some predicted
              ∧ is_Some (color_of predicted).
Proof.
  split_and!.
  - apply dom_COLOR_MAP.
  - apply species_in_COLOR_MAP.
  - apply elem_of_dom, species_in_COLOR_MAP.
  - intros test_df σ σ' df test_results Hdf Hrun.
    destruct (table_row_cells gp parse_tree _ _ _ _ _ Hdf Hrun)
      as (table & Htable & Hrows).
    exists table. split; [done|]. intros r Hr.
    destruct (Hrows r Hr) as (_ & _ & _ & _ & score & _ & _ & _ & _ & _ & ->).
    eexists. split; [done|]. apply elem_of_dom, species_in_COLOR_MAP.
Qed.
End Claims.

(** ** The statements on the example dataset *)

Lemma tabulate_results_keeps_records_witness :
  ∃ table,
    heap (tabulate_results example_gp tt 1%positive (example_state example_df)).1
      !! 2%positive = Some table
    ∧ length (rows table) = length (rows example_df)
    ∧ index table = index example_df
    ∧ ∀ i r, rows example_df !! i = Some r →
        ∃ r', rows table !! i = Some r'
          ∧ name r' = name r
          ∧ (∀ c v, data r !! c = Some v → data r' !! c = Some v)
          ∧ dom (data r') = dom (data r) ∪ list_to_set derived.
Proof.
  apply (tabulate_results_keeps_records example_gp tt 1%positive
           (example_state example_df) _ example_df 2%positive).
  - reflexivity.
  - apply (bool_decide_unpack _). vm_compute. exact I.
  - vm_compute. reflexivity.
Defined.

Lemma tabulate_results_propagates_witness :
  (∃ h', tabulate_results example_gp tt 1%positive (example_state faulty_df)
           = (mkState h' 3%nat, inl "TypeError")
         ∧ init example_gp tt 1%positive (example_state faulty_df)
           = (mkState h' 3%nat, inl "TypeError"))
  ∧ (∃ h', tabulate_results (with_log example_gp) tt 1%positive
             (logged_state faulty_df)
           = (mkState h'
                (3%nat, pending <$> take 3 (rows faulty_df)), inl "TypeError")).
Proof.
  apply (tabulate_results_propagates example_gp tt 1%positive
           (example_state faulty_df) faulty_df
           (take 2 (rows faulty_df))
           (example_row 75 VNone "Iris-virginica")
           (drop 3 (rows faulty_df)) 2%nat
           [(true, Finite 1); (true, Finite 2)] 3%nat "TypeError").
  - reflexivity.
  - reflexivity.
  - vm_compute. reflexivity.
  - vm_compute. reflexivity.
Defined.

Lemma class_depends_on_score_only_witness :
  ∃ table outs,
    heap (tabulate_results example_gp tt 1%positive (example_state repeated_df)).1
      !! 2%positive = Some table
    ∧ index table = index repeated_df
    ∧ evals example_gp tt (pending <$> rows repeated_df) 0%nat
      = (2%nat, outs, None)
    ∧ (∀ r, r ∈ rows table →
         ∃ i row correct score,
           (pending <$> rows repeated_df) !! i = Some row
           ∧ outs !! i = Some (correct, score)
           ∧ name row = name r
           ∧ data r !! "Correct" = Some (VBool correct)
           ∧ data r !! "PredictedValue" = Some (VNum score)
           ∧ data r !! "PredictedSpecies"
             = Some (VStr (species example_gp score)))
    ∧ (∀ r1 r2 score1 score2,
         r1 ∈ rows table → r2 ∈ rows table →
         data r1 !! "PredictedValue" = Some (VNum score1) →
         data r2 !! "PredictedValue" = Some (VNum score2) →
         same_score score1 score2 →
         data r1 !! "PredictedSpecies" = data r2 !! "PredictedSpecies")
    ∧ (∀ (gp2 : IrisGP unit nat string) σ2 res2,
         (∀ pt row s,
            evaluate_row gp2 pt row s = evaluate_row example_gp pt row s) →
         tabulate_results gp2 tt 1%positive (example_state repeated_df)
           = (σ2, res2) →
         ∃ table2,
           res2 = inr 2%positive
           ∧ heap σ2 !! 2%positive = Some table2
           ∧ Forall2 same_but_class (rows table) (rows table2)).
Proof.
  apply (class_depends_on_score_only example_gp tt 1%positive
           (example_state repeated_df)
           (tabulate_results example_gp tt 1%positive
              (example_state repeated_df)).1 repeated_df 2%positive).
  - reflexivity.
  - vm_compute. reflexivity.
Defined.

Lemma example_gp_ignores_derived : ignores_derived example_gp.
Proof.
  intros pt r s. simpl.
  rewrite !(pending_lookup_other r); [done|..];
    rewrite elem_of_derived; by intros [|[|]].
Qed.

Lemma tabulate_results_refines_tabulate_witness :
  (∃ h', tabulate_results (with_log example_gp) tt 1%positive
           (logged_state example_df)
         = (mkState h' (5%nat, pending <$> rows example_df), inr 2%positive))
  ∧ tabulate_results example_gp tt 1%positive (example_state example_df)
    = (mkState
         (<[2%positive :=
              mkDataFrame (result_columns example_columns) example_table]>
            {[ 1%positive := example_df ]}) 5%nat,
       inr 2%positive).
Proof.
  destruct (tabulate_results_refines_tabulate example_gp tt 1%positive
              (example_state example_df) example_df 5%nat example_table)
    as [Hlog Htable].
  - reflexivity.
  - exact example_gp_ignores_derived.
  - vm_compute. reflexivity.
  - split; [exact Hlog|]. apply Htable.
    apply (bool_decide_unpack _). vm_compute. exact I.
Defined.

Lemma tabulate_results_empty_witness :
  tabulate_results example_gp tt 1%positive (example_state empty_df)
    = (mkState
         (<[2%positive := mkDataFrame (result_columns example_columns) []]>
            {[ 1%positive := empty_df ]}) 0%nat,
       inr 2%positive)
  ∧ tabulate_results (with_log example_gp) tt 1%positive (logged_state empty_df)
    = (mkState
         (<[2%positive := mkDataFrame (result_columns example_columns) []]>
            {[ 1%positive := empty_df ]}) (0%nat, []),
       inr 2%positive).
Proof.
  apply (tabulate_results_empty example_gp tt 1%positive
           (example_state empty_df) empty_df); reflexivity.
Defined.

Lemma tabulate_results_leaves_input_witness :
  heap (tabulate_results example_gp tt 1%positive (example_state faulty_df)).1
    !! 1%positive = Some faulty_df
  ∧ (∀ l, l ∈ dom (heap (example_state faulty_df)) →
       heap (tabulate_results example_gp tt 1%positive
               (example_state faulty_df)).1 !! l
       = heap (example_state faulty_df) !! l)
  ∧ ∃ new table,
      (new ∉ dom (heap (example_state faulty_df)))
      ∧ heap (tabulate_results example_gp tt 1%positive
                (example_state faulty_df)).1
        = <[new := table]> (heap (example_state faulty_df))
      ∧ (∀ test_results,
           (tabulate_results example_gp tt 1%positive
              (example_state faulty_df)).2 = inr test_results →
           test_results = new).
Proof.
  apply (tabulate_results_leaves_input example_gp tt 1%positive
           (example_state faulty_df) _ faulty_df).
  - reflexivity.
  - apply surjective_pairing.
Defined.

Lemma example_gp_deterministic : deterministic example_gp.
Proof.
  intros pt row s1 s2. simpl.
  by destruct (data row !! "PetalLengthCm") as [[]|].
Qed.

Lemma tabulate_results_twice_witness :
  (2 ≠ 3)%positive
  ∧ ∃ table,
      heap (tabulate_results example_gp tt 1%positive
              (tabulate_results example_gp tt 1%positive
                 (example_state example_df)).1).1 !! 2%positive = Some table
      ∧ heap (tabulate_results example_gp tt 1%positive
                (tabulate_results example_gp tt 1%positive
                   (example_state example_df)).1).1 !! 3%positive = Some table.
Proof.
  apply (tabulate_results_twice example_gp tt 1%positive
           (example_state example_df)
           (tabulate_results example_gp tt 1%positive
              (example_state example_df)).1
           (tabulate_results example_gp tt 1%positive
              (tabulate_results example_gp tt 1%positive
                 (example_state example_df)).1).1
           example_df (inr 2%positive) (inr 3%positive)).
  - exact example_gp_deterministic.
  - reflexivity.
  - vm_compute. reflexivity.
  - vm_compute. reflexivity.
Defined.

Lemma predicted_species_has_color_witness :
  species example_gp NaN ∈ dom COLOR_MAP
  ∧ ∃ table,
      heap (tabulate_results example_gp tt 1%positive
              (example_state example_df)).1 !! 2%positive = Some table
      ∧ ∀ r, r ∈ rows table →
          ∃ predicted,
            data r !! "PredictedSpecies" = Some predicted
            ∧ is_Some (color_of predicted).
Proof.
  destruct (predicted_species_has_color example_gp tt NaN)
    as (_ & Hkey & _ & Htable).
  split; [exact Hkey|].
  apply (Htable 1%positive (example_state example_df) _ example_df 2%positive).
  - reflexivity.
  - vm_compute. reflexivity.
Defined.

(** ** A repeated index label *)

(** C5. The claim fails on the code at a dataset with a repeated index
    label. In [repeated_df] two records carry the label 0. The tabulator of
    the specification builds the first result record from the first record
    and the predictor's answer for it, [True] and 1.0. In the table of
    [tabulate_results] the first result record holds [False], 9.0 and
    Iris-virginica, the answer for the second record: the writes of the
    second iteration go to every row labelled 0. *)
Theorem repeated_label_breaks_records :
  tabulate example_gp tt (rows repeated_df) 0%nat
    = (2%nat,
       inr [ result_record example_gp
               (example_row 0 (VNum (Finite 1)) "Iris-setosa") (true, Finite 1);
             result_record example_gp
               (example_row 0 (VNum (Finite 9)) "Iris-setosa") (false, Finite 9) ])
  ∧ (tabulate_results example_gp tt 1%positive (example_state repeated_df)).2
    = inr 2%positive
  ∧ rows <$> heap (tabulate_results example_gp tt 1%positive
                     (example_state repeated_df)).1 !! 2%positive
    = Some [ result_record example_gp
               (example_row 0 (VNum (Finite 1)) "Iris-setosa") (false, Finite 9);
             result_record example_gp
               (example_row 0 (VNum (Finite 9)) "Iris-setosa") (false, Finite 9) ].
Proof.
  split_and!.
  - vm_compute. reflexivity.
  - vm_compute. reflexivity.
  - vm_compute. reflexivity.
Qed.

(** C4. The second half of the claim fails on the code at the same dataset.
    The call that [tabulate_results] makes for the first record returns
    [True] with the score 1.0, yet the [Correct] cell of the first result
    record is [False]: it holds what the predictor reported for the second
    record. The first half holds there: the class cell of that row is the
    class of its score cell, 9.0. *)
Theorem repeated_label_hides_report :
  evaluate_row example_gp tt
    (pending (example_row 0 (VNum (Finite 1)) "Iris-setosa")) 0%nat
    = (1%nat, inr (true, Finite 1))
  ∧ (tabulate_results example_gp tt 1%positive (example_state repeated_df)).2
    = inr 2%positive
  ∧ (heap (tabulate_results example_gp tt 1%positive
             (example_state repeated_df)).1 !! 2%positive
       ≫= λ table, rows table !! 0%nat
       ≫= λ r, data r !! "Correct") = Some (VBool false)
  ∧ (heap (tabulate_results example_gp tt 1%positive
             (example_state repeated_df)).1 !! 2%positive
       ≫= λ table, rows table !! 0%nat
       ≫= λ r, data r !! "PredictedValue") = Some (VNum (Finite 9))
  ∧ (heap (tabulate_results example_gp tt 1%positive
             (example_state repeated_df)).1 !! 2%positive
       ≫= λ table, rows table !! 0%nat
       ≫= λ r, data r !! "PredictedSpecies")
    = Some (VStr (species example_gp (Finite 9))).
Proof.
  split_and!.
  - vm_compute. reflexivity.
  - vm_compute. reflexivity.
  - vm_compute. reflexivity.
  - vm_compute. reflexivity.
  - vm_compute. reflexivity.
Qed.

(** * Further properties *)

(** ** The thresholds, whatever their order *)

Section ThresholdOrder.
Context {ParseTree PState exn : Type}.
Variable gp : IrisGP ParseTree PState exn.

Local Abbreviation T_low := (THRESHOLD_LOW gp).
Local Abbreviation T_high := (THRESHOLD_HIGH gp).

Lemma species_virginica_iff (s : Q) :
  species gp (Finite s) = "Iris-virginica" ↔ (T_low <= s ∧ T_high <= s)%Q.
Proof.
  rewrite <- !Qltb_ge. unfold species; simpl.
  destruct (Qltb s T_low); [split; [discriminate|by intros [? _]]|].
  destruct (Qltb s T_high); [split; [discriminate|by intros [_ ?]]|done].
Qed.

(** X1. The class never goes down when the score goes up, whatever the two
    thresholds are: below a score classified Iris-setosa everything is
    Iris-setosa, above a score classified Iris-virginica everything is
    Iris-virginica. *)
Theorem species_monotone (s1 s2 : Q) :
  (s1 <= s2)%Q →
  (species gp (Finite s2) = "Iris-setosa" → species gp (Finite s1) = "Iris-setosa")
  ∧ (species gp (Finite s1) = "Iris-virginica"
     → species gp (Finite s2) = "Iris-virginica").
Proof.
  intros Hle. split.
  - rewrite !species_setosa. intros Hlt. by eapply Qle_lt_trans.
  - rewrite !species_virginica_iff. intros [Hlow Hhigh].
    split; by eapply Qle_trans.
Qed.

(** X2. Iris-versicolor can be predicted only with ascending thresholds:
    some score is classified Iris-versicolor iff
    [THRESHOLD_LOW < THRESHOLD_HIGH]; with [THRESHOLD_HIGH <= THRESHOLD_LOW]
    every score, NaN and the infinities included, is Iris-setosa or
    Iris-virginica. *)
Theorem versicolor_iff_ascending :
  (∃ res, species gp res = "Iris-versicolor") ↔ (T_low < T_high)%Q.
Proof.
  split.
  - intros [res Hres].
    destruct (species_cases gp res) as [[E _]|[(_ & Hlow & Hhigh)|[E _]]];
      [rewrite Hres in E; discriminate| |rewrite Hres in E; discriminate].
    destruct res as [s| | |]; simpl in *; try discriminate.
    apply Qltb_ge in Hlow. apply Qltb_lt in Hhigh.
    by eapply Qle_lt_trans.
  - intros Hasc. exists (Finite T_low). apply species_versicolor.
    split; [apply Qle_refl|done].
Qed.
End ThresholdOrder.

Lemma species_monotone_witness :
  (species example_gp (Finite 9) = "Iris-setosa"
   → species example_gp (Finite 5) = "Iris-setosa")
  ∧ (species example_gp (Finite 5) = "Iris-virginica"
     → species example_gp (Finite 9) = "Iris-virginica").
Proof. apply (species_monotone example_gp 5 9). discriminate. Defined.

(** ** The shape of the table *)

Lemma result_columns_new cols :
  (∀ c, c ∈ derived → c ∉ cols) → result_columns cols = (cols ++ derived)%list.
Proof.
  intros Hnew. unfold result_columns, derived; simpl.
  destruct (decide ("Correct" ∈ cols)) as [H|_].
  { by apply (Hnew _ Correct_derived) in H. }
  destruct (decide ("PredictedValue" ∈ (cols ++ ["Correct"])%list)) as [H|_].
  { apply elem_of_app in H as [H|H].
    - by apply (Hnew _ PredictedValue_derived) in H.
    - by apply list_elem_of_singleton in H. }
  destruct (decide ("PredictedSpecies"
                    ∈ ((cols ++ ["Correct"]) ++ ["PredictedValue"])%list))
    as [H|_].
  { rewrite !elem_of_app, !list_elem_of_singleton in H.
    destruct H as [[H|H]|H]; [|done..].
    by apply (Hnew _ PredictedSpecies_derived) in H. }
  by rewrite <- !(assoc_L (++)).
Qed.

Lemma add_column_old (c x : string) cs :
  x ∈ (if decide (c ∈ cs) then cs else (cs ++ [c])%list) → x ∈ cs ∨ x = c.
Proof.
  case_decide; [by left|]. rewrite elem_of_app, list_elem_of_singleton. tauto.
Qed.

Lemma add_column_NoDup (c : string) cs :
  NoDup cs → NoDup (if decide (c ∈ cs) then cs else (cs ++ [c])%list).
Proof.
  intros Hnd. case_decide; [done|]. apply NoDup_app. split_and!; [done| |].
  - intros x Hx Hc. apply list_elem_of_singleton in Hc as ->. done.
  - apply NoDup_singleton.
Qed.

Lemma result_columns_NoDup cols : NoDup cols → NoDup (result_columns cols).
Proof.
  intros Hnd. unfold result_columns, derived; simpl.
  by do 3 apply add_column_NoDup.
Qed.

Lemma elem_of_result_columns cols c :
  c ∈ result_columns cols ↔ c ∈ cols ∨ c ∈ derived.
Proof.
  split.
  - unfold result_columns; simpl. rewrite elem_of_derived.
    intros [[[?| ->]%add_column_old| ->]%add_column_old| ->]%add_column_old;
      tauto.
  - intros [Hc|Hc]; [|by apply derived_result_columns].
    unfold result_columns; simpl. by do 3 apply add_column_keeps.
Qed.

Section Shape.
Context {ParseTree PState exn : Type}.
Variable gp : IrisGP ParseTree PState exn.
Variable parse_tree : ParseTree.

(** X3. Whether [tabulate_results] returns or raises, the columns of the new
    object are those of the dataset, in their order, followed by the derived
    columns the dataset did not have: every dataset column and every derived
    column is there, no column is duplicated, and for a dataset without
    derived columns the list is the dataset's columns followed by [Correct],
    [PredictedValue], [PredictedSpecies]. *)
Theorem tabulate_results_columns test_df (σ σ' : state PState) df res :
  heap σ !! test_df = Some df →
  tabulate_results gp parse_tree test_df σ = (σ', res) →
  ∃ table,
    heap σ' !! fresh (dom (heap σ)) = Some table
    ∧ (∀ c, c ∈ columns table ↔ c ∈ columns df ∨ c ∈ derived)
    ∧ (NoDup (columns df) → NoDup (columns table))
    ∧ ((∀ c, c ∈ derived → c ∉ columns df) →
       columns table = (columns df ++ derived)%list).
Proof.
  intros Hdf. rewrite (tabulate_results_run _ _ _ _ _ Hdf); simpl.
  destruct (evals gp parse_tree (pending <$> rows df) (predictor σ))
    as [[s' outs] e].
  intros [= <- <-]; simpl. eexists. split; [by rewrite lookup_insert_eq|].
  simpl. split_and!.
  - apply elem_of_result_columns.
  - apply result_columns_NoDup.
  - apply result_columns_new.
Qed.

Lemma dom_pending r : dom (data (pending r)) = dom (data r) ∪ list_to_set derived.
Proof.
  apply set_eq. intros c. unfold pending. cbn [data].
  rewrite !dom_insert_L, !elem_of_union, elem_of_list_to_set, elem_of_derived.
  rewrite !elem_of_singleton. tauto.
Qed.

Lemma dom_write_row io r :
  list_to_set derived ⊆ dom (data r) →
  dom (data (write_row gp io r)) = dom (data r).
Proof.
  intros Hsub. unfold write_row. case_decide; [|done]. simpl.
  rewrite dom_fill. apply set_eq. intros c. rewrite elem_of_union.
  split; [intros [?|?]; [done|by apply Hsub]|by left].
Qed.

Lemma dom_settle ios : ∀ r,
  list_to_set derived ⊆ dom (data r) →
  dom (data (settle gp ios r)) = dom (data r).
Proof.
  induction ios as [|io ios IH]; intros r Hsub; [done|].
  rewrite settle_cons, IH; rewrite dom_write_row; done.
Qed.

(** X4. [tabulate_results] keeps the frame rectangular: if every row of the
    dataset has exactly the dataset's columns, then every row of the new
    object has exactly the new object's columns, whether the call returns or
    raises. *)
Theorem tabulate_results_rectangular test_df (σ σ' : state PState) df res :
  heap σ !! test_df = Some df → rectangular df →
  tabulate_results gp parse_tree test_df σ = (σ', res) →
  ∃ table, heap σ' !! fresh (dom (heap σ)) = Some table ∧ rectangular table.
Proof.
  intros Hdf Hrect. rewrite (tabulate_results_run _ _ _ _ _ Hdf); simpl.
  destruct (evals gp parse_tree (pending <$> rows df) (predictor σ))
    as [[s' outs] e].
  intros [= <- <-]; simpl. eexists. split; [by rewrite lookup_insert_eq|].
  unfold rectangular in *; simpl. rewrite !Forall_fmap.
  eapply Forall_impl; [exact Hrect|]. intros r Hr; simpl.
  rewrite dom_settle, dom_pending, Hr.
  - apply set_eq. intros c.
    rewrite elem_of_union, !elem_of_list_to_set, elem_of_result_columns. done.
  - rewrite dom_pending. intros c Hc. apply elem_of_union. by right.
Qed.

Lemma fill_settle ios : ∀ out r,
  fill gp out (data (settle gp ios r)) = fill gp out (data r).
Proof.
  induction ios as [|io ios IH]; intros out r; [done|].
  rewrite settle_cons, IH. unfold write_row. case_decide; [|done].
  apply fill_fill.
Qed.

(** The last iteration that carries the label of a row decides its cells. *)
Lemma settle_last ios1 io ios2 r :
  name r = name io.1 →
  name r ∉ (name ∘ fst) <$> ios2 →
  settle gp (ios1 ++ io :: ios2) r = mkSeries (name r) (fill gp io.2 (data r)).
Proof.
  intros Hname Hafter. rewrite settle_app, settle_cons.
  rewrite settle_unmatched.
  2: { by rewrite name_write_row, name_settle. }
  rewrite write_row_eq by (by rewrite name_settle).
  by rewrite name_settle, fill_settle.
Qed.

(** X5. For any dataset, distinct labels or not: when [tabulate_results]
    returns, every row that carries a given index label holds, in its three
    derived cells, the predictor's answer for the last record with that
    label, and its own fields elsewhere. *)
Theorem tabulate_results_last_label test_df (σ σ' : state PState) df
    test_results before r after s1 outs1 s2 out :
  heap σ !! test_df = Some df →
  tabulate_results gp parse_tree test_df σ = (σ', inr test_results) →
  rows df = (before ++ r :: after)%list →
  name r ∉ name <$> after →
  evals gp parse_tree (pending <$> before) (predictor σ) = (s1, outs1, None) →
  evaluate_row gp parse_tree (pending r) s1 = (s2, inr out) →
  ∃ table,
    heap σ' !! test_results = Some table
    ∧ ∀ i r0, rows df !! i = Some r0 → name r0 = name r →
        rows table !! i = Some (result_record gp r0 out).
Proof.
  intros Hdf Hrun Hrows Hafter Hbefore Hr.
  destruct (tabulate_results_returns _ _ _ _ _ _ _ Hdf Hrun)
    as (outs & Hevals & Hlen & -> & Hheap).
  eexists. split; [by rewrite Hheap, lookup_insert_eq|]. simpl.
  intros i r0 Hr0 Hname. rewrite !list_lookup_fmap, Hr0. simpl. f_equal.
  rewrite Hrows, fmap_app, fmap_cons, evals_app, Hbefore in Hevals.
  cbn [evals] in Hevals. rewrite Hr in Hevals.
  destruct (evals gp parse_tree (pending <$> after) s2)
    as [[s3 outs2] e2] eqn:Hafter_evals.
  injection Hevals as _ <- ->.
  apply evals_length in Hbefore, Hafter_evals.
  rewrite Hrows, fmap_app, fmap_cons.
  rewrite zip_with_app by done. simpl.
  rewrite (settle_last _ (pending r, out)).
  - cbn [snd]. by rewrite result_record_fill, fill_pending.
  - done.
  - rewrite list_fmap_compose, fst_zip by lia.
    rewrite (index_fmap pending) by done. simpl. by rewrite Hname.
Qed.
End Shape.

(** ** The constructed object *)

Section Object.
Context {ParseTree PState exn : Type}.
Variable gp : IrisGP ParseTree PState exn.

Lemma init_tabulate_results pt td (σ : state PState) :
  init gp pt td σ =
    match tabulate_results gp pt td σ with
    | (σ', inl e) => (σ', inl e)
    | (σ', inr table) => (σ', inr (mkVisualizations pt td table))
    end.
Proof.
  unfold init, mbind, M_bind, bind.
  by destruct (tabulate_results gp pt td σ) as [σ' [e|table]].
Qed.

(** X6. When [__init__] returns, the object refers to the caller's dataset
    itself ([self.test_df] is the argument, not a copy) and to a table in a
    new object, different from the dataset. The dataset is unchanged, and a
    later in-place change of the dataset shows through [self.test_df] but
    does not reach the table. *)
Theorem init_returns pt td (σ σ' : state PState) df self :
  heap σ !! td = Some df →
  init gp pt td σ = (σ', inr self) →
  parse_tree self = pt
  ∧ test_df self = td
  ∧ test_results self ≠ td
  ∧ (test_results self ∉ dom (heap σ))
  ∧ tabulate_results gp pt td σ = (σ', inr (test_results self))
  ∧ heap σ' !! test_df self = Some df
  ∧ ∃ table,
      heap σ' !! test_results self = Some table
      ∧ ∀ f : DataFrame → DataFrame,
          alter f td (heap σ') !! test_df self = Some (f df)
          ∧ alter f td (heap σ') !! test_results self = Some table.
Proof.
  intros Hdf. rewrite init_tabulate_results.
  destruct (tabulate_results gp pt td σ) as [σ1 [e|table_loc]] eqn:Hrun; [done|].
  intros [= <- <-]. simpl.
  pose proof (tabulate_results_dataset _ _ _ _ _ _ _ Hdf Hrun) as Hdf'.
  destruct (tabulate_results_returns _ _ _ _ _ _ _ Hdf Hrun)
    as (outs & _ & _ & -> & Hheap).
  pose proof (is_fresh (dom (heap σ))) as Hnew.
  assert (Hne : fresh (dom (heap σ)) ≠ td).
  { intros E. apply Hnew. rewrite E. apply elem_of_dom. by eexists. }
  split_and!; try done.
  eexists. split; [by rewrite Hheap, lookup_insert_eq|].
  intros f. split.
  - by rewrite lookup_alter_eq, Hdf'.
  - rewrite lookup_alter_ne by done. by rewrite Hheap, lookup_insert_eq.
Qed.
End Object.

Lemma init_returns_witness :
  parse_tree (mkVisualizations tt 1%positive 2%positive) = tt
  ∧ test_df (mkVisualizations tt 1%positive 2%positive) = 1%positive
  ∧ test_results (mkVisualizations tt 1%positive 2%positive) ≠ 1%positive
  ∧ (test_results (mkVisualizations tt 1%positive 2%positive)
       ∉ dom (heap (example_state example_df)))
  ∧ tabulate_results example_gp tt 1%positive (example_state example_df)
    = ((init example_gp tt 1%positive (example_state example_df)).1,
       inr (test_results (mkVisualizations tt 1%positive 2%positive)))
  ∧ heap (init example_gp tt 1%positive (example_state example_df)).1
      !! test_df (mkVisualizations tt 1%positive 2%positive) = Some example_df
  ∧ ∃ table,
      heap (init example_gp tt 1%positive (example_state example_df)).1
        !! test_results (mkVisualizations tt 1%positive 2%positive) = Some table
      ∧ ∀ f : DataFrame → DataFrame,
          alter f 1%positive
            (heap (init example_gp tt 1%positive (example_state example_df)).1)
            !! test_df (mkVisualizations tt 1%positive 2%positive)
          = Some (f example_df)
          ∧ alter f 1%positive
              (heap (init example_gp tt 1%positive (example_state example_df)).1)
              !! test_results (mkVisualizations tt 1%positive 2%positive)
            = Some table.
Proof.
  apply (init_returns example_gp tt 1%positive (example_state example_df)
           (init example_gp tt 1%positive (example_state example_df)).1
           example_df (mkVisualizations tt 1%positive 2%positive)).
  - reflexivity.
  - vm_compute. reflexivity.
Defined.

(** ** The scatter plot *)

Lemma last_char_app (s1 s2 : string) :
  s2 ≠ "" → last_char (s1 +:+ s2) = last_char s2.
Proof.
  intros Hs2. induction s1 as [|a s1 IH]; [done|].
  change (String a s1 +:+ s2) with (String a (s1 +:+ s2)).
  cbn [last_char]. rewrite IH.
  destruct (s1 +:+ s2) eqn:E; [|done].
  destruct s1; [|discriminate]. by simpl in E.
Qed.

(** No measurement column of the plot is a derived column. *)
Lemma LengthCm_not_derived part : part +:+ "LengthCm" ∉ derived.
Proof.
  rewrite elem_of_derived.
  intros [E|[E|E]]; apply (f_equal last_char) in E;
    rewrite last_char_app in E by done; discriminate.
Qed.

Lemma WidthCm_not_derived part : part +:+ "WidthCm" ∉ derived.
Proof.
  rewrite elem_of_derived.
  intros [E|[E|E]]; apply (f_equal last_char) in E;
    rewrite last_char_app in E by done; discriminate.
Qed.

(** The arguments with their exception and the arguments without it. *)
Lemma scatter_call_args part row sc :
  scatter_call part row = inr sc ↔ scatter_args part row = Some sc.
Proof.
  unfold scatter_call, scatter_args, series_getitem, COLOR_MAP_getitem,
    marker_alpha, marker_size.
  destruct (data row !! (part +:+ "LengthCm")) as [x|]; simpl; [|done].
  destruct (data row !! (part +:+ "WidthCm")) as [y|]; simpl; [|done].
  destruct (data row !! "PredictedSpecies") as [predicted|]; simpl; [|done].
  destruct (color_of predicted) as [color|]; simpl; [|done].
  destruct (data row !! "Correct") as [correct|]; simpl; [|done].
  split; by intros [= <-].
Qed.

Lemma scatter_rows_returns part its scs :
  Forall2 (λ r sc, scatter_call part r = inr sc) its scs →
  scatter_rows part its = (plt_scatter <$> scs, inr tt).
Proof.
  induction 1 as [|r sc its scs Hr _ IH]; [done|].
  cbn [scatter_rows]. by rewrite Hr, IH.
Qed.

Lemma scatter_rows_raises part before r after scs e :
  Forall2 (λ r sc, scatter_call part r = inr sc) before scs →
  scatter_call part r = inl e →
  scatter_rows part (before ++ r :: after) = (plt_scatter <$> scs, inl e).
Proof.
  intros Hbefore Hr.
  induction Hbefore as [|r0 sc its scs Hr0 _ IH]; simpl.
  - by rewrite Hr.
  - by rewrite Hr0, IH.
Qed.

Section Scatter.
Context {ParseTree PState exn : Type}.
Variable gp : IrisGP ParseTree PState exn.
Variable pt : ParseTree.

(** On a rectangular table a row has a cell in every column. *)
Lemma rectangular_cell table r c :
  rectangular table → r ∈ rows table → c ∈ columns table →
  is_Some (data r !! c).
Proof.
  intros Hrect Hr Hc. unfold rectangular in Hrect.
  rewrite Forall_forall in Hrect. apply elem_of_dom.
  rewrite (Hrect r Hr). by apply elem_of_list_to_set.
Qed.

(** X7. On a rectangular table that has the two measurement columns of
    [part] and the [PredictedSpecies] and [Correct] columns, the scatter
    plot raises [KeyError] at the first row whose [PredictedSpecies] cell
    is no key of [COLOR_MAP] (a missing value, say), with that cell as the
    key: the rows before it have been drawn, one [plt.scatter] call each,
    and neither the legend nor the labels nor [plt.show] are reached. *)
Theorem plot_predictions_raises (self : @Visualizations ParseTree) part h
    table before r after key :
  h !! test_results self = Some table →
  rectangular table →
  part +:+ "LengthCm" ∈ columns table →
  part +:+ "WidthCm" ∈ columns table →
  "PredictedSpecies" ∈ columns table →
  "Correct" ∈ columns table →
  rows table = (before ++ r :: after)%list →
  Forall (λ r0, ∃ predicted, data r0 !! "PredictedSpecies" = Some predicted
                             ∧ is_Some (color_of predicted)) before →
  data r !! "PredictedSpecies" = Some key →
  color_of key = None →
  ∃ scs,
    plot_predictions_by_dimension self part h
      = (plt_scatter <$> scs, inl (mkKeyError key))
    ∧ Forall2 (λ r0 sc, scatter_args part r0 = Some sc) before scs.
Proof.
  intros Htable Hrect Hlen Hwid Hps Hcor Hrows Hbefore Hkey Hcolor.
  assert (Hcells : ∀ r0 c, r0 ∈ rows table → c ∈ columns table →
                     is_Some (data r0 !! c)).
  { intros r0 c. by apply rectangular_cell. }
  assert (Hscs : ∃ scs,
            Forall2 (λ r0 sc, scatter_call part r0 = inr sc) before scs).
  { assert (Hin : Forall (λ r0, r0 ∈ rows table) before).
    { apply Forall_forall. intros r0 Hr0. rewrite Hrows, elem_of_app. by left. }
    clear Hrows. induction before as [|r0 before IH]; [by exists []|].
    apply Forall_cons in Hbefore as [(predicted & Hpred & [color Hc]) Hbefore].
    apply Forall_cons in Hin as [Hr0 Hin].
    destruct (IH Hbefore Hin) as [scs Hscs].
    destruct (Hcells r0 _ Hr0 Hlen) as [x Hx].
    destruct (Hcells r0 _ Hr0 Hwid) as [y Hy].
    destruct (Hcells r0 _ Hr0 Hcor) as [correct Hcorrect].
    eexists (_ :: scs). constructor; [|done].
    unfold scatter_call, series_getitem, COLOR_MAP_getitem.
    by rewrite Hx, Hy, Hpred, Hc, Hcorrect. }
  destruct Hscs as [scs Hscs]. exists scs. split.
  - unfold plot_predictions_by_dimension, iterrows.
    rewrite (lookup_total_correct _ _ _ Htable), Hrows.
    rewrite (scatter_rows_raises _ _ _ _ _ (mkKeyError key) Hscs); [done|].
    assert (Hr : r ∈ rows table).
    { rewrite Hrows, elem_of_app. right. by left. }
    destruct (Hcells r _ Hr Hlen) as [x Hx].
    destruct (Hcells r _ Hr Hwid) as [y Hy].
    unfold scatter_call, series_getitem, COLOR_MAP_getitem.
    by rewrite Hx, Hy, Hkey, Hcolor.
  - eapply Forall2_impl; [exact Hscs|].
    intros r0 sc. apply scatter_call_args.
Qed.

(** X8. With a [part] that names no column of a rectangular table, the
    scatter plot raises [KeyError] on the length column before anything is
    drawn if the table has a row; if the table is empty it raises nothing
    and shows an empty chart with its legend and labels. *)
Theorem plot_predictions_unknown_part (self : @Visualizations ParseTree) part h
    table :
  h !! test_results self = Some table →
  rectangular table →
  part +:+ "LengthCm" ∉ columns table →
  plot_predictions_by_dimension self part h =
    match rows table with
    | [] => (decorations part, inr tt)
    | _ :: _ => ([], inl (mkKeyError (VStr (part +:+ "LengthCm"))))
    end.
Proof.
  intros Htable Hrect Hpart. unfold plot_predictions_by_dimension, iterrows.
  rewrite (lookup_total_correct _ _ _ Htable).
  destruct (rows table) as [|r rs] eqn:Hrows; [done|].
  unfold rectangular in Hrect. rewrite Hrows in Hrect.
  apply Forall_cons in Hrect as [Hr _].
  assert (Hnone : data r !! (part +:+ "LengthCm") = None).
  { apply not_elem_of_dom. rewrite Hr. by rewrite elem_of_list_to_set. }
  cbn [scatter_rows]. unfold scatter_call, series_getitem. by rewrite Hnone.
Qed.

(** A row of a returned table whose record has the two measurements can be
    drawn. *)
Lemma table_row_scatter part r out :
  is_Some (data r !! (part +:+ "LengthCm")) →
  is_Some (data r !! (part +:+ "WidthCm")) →
  ∃ sc, scatter_call part (mkSeries (name r) (fill gp out (data r))) = inr sc
        ∧ data r !! (part +:+ "LengthCm") = Some (scatter_x sc)
        ∧ data r !! (part +:+ "WidthCm") = Some (scatter_y sc)
        ∧ COLOR_MAP !! species gp out.2 = Some (scatter_color sc)
        ∧ scatter_alpha sc = (if out.1 then CORRECT_OPACITY else 1%Q)
        ∧ scatter_s sc = (if out.1 then CORRECT_SIZE else INCORRECT_SIZE).
Proof.
  intros [x Hx] [y Hy].
  pose proof (species_in_COLOR_MAP gp out.2) as Hkey.
  apply elem_of_dom in Hkey as [color Hcolor].
  eexists. unfold scatter_call, series_getitem, COLOR_MAP_getitem. simpl.
  rewrite (fill_lookup_other gp _ _ _ (LengthCm_not_derived part)), Hx.
  rewrite (fill_lookup_other gp _ _ _ (WidthCm_not_derived part)), Hy.
  rewrite fill_lookup_PredictedSpecies, fill_lookup_Correct. simpl.
  rewrite Hcolor. done.
Qed.

Lemma table_rows_scatter part records outs rs :
  length outs = length records →
  Forall (λ r, r ∈ records) rs →
  Forall (λ r, is_Some (data r !! (part +:+ "LengthCm"))
               ∧ is_Some (data r !! (part +:+ "WidthCm"))) rs →
  ∃ scs,
    Forall2 (λ r' sc, scatter_call part r' = inr sc)
      (settle gp (zip (pending <$> records) outs) <$> (pending <$> rs)) scs
    ∧ Forall2 (λ r sc,
                 data r !! (part +:+ "LengthCm") = Some (scatter_x sc)
                 ∧ data r !! (part +:+ "WidthCm") = Some (scatter_y sc))
        rs scs.
Proof.
  intros Hlen Hin Hparts. induction rs as [|r rs IH].
  { exists []. split; constructor. }
  apply Forall_cons in Hparts as [[Hx Hy] Hparts].
  apply Forall_cons in Hin as [Hr Hin].
  destruct (IH Hin Hparts) as (scs & Hcalls & Hxy).
  destruct (settled_row gp records outs r Hlen Hr) as (io & _ & _ & Heq).
  destruct (table_row_scatter part r io.2 Hx Hy)
    as (sc & Hsc & Hscx & Hscy & _).
  exists (sc :: scs). rewrite !fmap_cons, Heq.
  split; by constructor.
Qed.

(** X9. On the table of an object built from a dataset whose records all
    have the two measurements of [part], the scatter plot raises nothing:
    it makes one [plt.scatter] call per row, in row order, then the legend,
    the two axis labels, the title and [plt.show]. Each call has the two
    measurements of the dataset's record at that position and the color,
    opacity and size that [COLOR_MAP] and the [Correct] cell of the table's
    row give. *)
Theorem plot_predictions_returns td (σ σ' : state PState) df self part :
  heap σ !! td = Some df →
  Forall (λ r, is_Some (data r !! (part +:+ "LengthCm"))
               ∧ is_Some (data r !! (part +:+ "WidthCm"))) (rows df) →
  init gp pt td σ = (σ', inr self) →
  ∃ table scs,
    heap σ' !! test_results self = Some table
    ∧ plot_predictions_by_dimension self part (heap σ')
      = ((plt_scatter <$> scs) ++ decorations part, inr tt)%list
    ∧ Forall2 (λ r' sc, scatter_args part r' = Some sc) (rows table) scs
    ∧ Forall2 (λ r sc,
                 data r !! (part +:+ "LengthCm") = Some (scatter_x sc)
                 ∧ data r !! (part +:+ "WidthCm") = Some (scatter_y sc))
        (rows df) scs.
Proof.
  intros Hdf Hparts. rewrite init_tabulate_results.
  destruct (tabulate_results gp pt td σ) as [σ1 [e|table_loc]] eqn:Hrun; [done|].
  intros [= <- <-]. simpl.
  destruct (tabulate_results_returns _ _ _ _ _ _ _ Hdf Hrun)
    as (outs & Hevals & Hlen & -> & Hheap).
  destruct (table_rows_scatter part (rows df) outs (rows df) Hlen)
    as (scs & Hcalls & Hxy); [by apply Forall_forall|done|].
  eexists _, scs. split; [by rewrite Hheap, lookup_insert_eq|]. simpl.
  split_and!.
  - unfold plot_predictions_by_dimension, iterrows; simpl.
    rewrite Hheap, lookup_total_insert_eq; simpl.
    by rewrite (scatter_rows_returns _ _ _ Hcalls).
  - eapply Forall2_impl; [exact Hcalls|].
    intros r' sc. apply scatter_call_args.
  - done.
Qed.

(** X10. Classes that differ are never drawn in the same color, and the
    color of every predicted class is the color of a patch of the legend. *)
Theorem colors_tell_classes (res1 res2 : number) :
  (COLOR_MAP !! species gp res1 = COLOR_MAP !! species gp res2
   → species gp res1 = species gp res2)
  ∧ ∃ color label,
      COLOR_MAP !! species gp res1 = Some color ∧ Patch color label ∈ handles.
Proof.
  split.
  - destruct (species_cases gp res1) as [[-> _]|[[-> _]| [-> _]]],
      (species_cases gp res2) as [[-> _]|[[-> _]| [-> _]]];
      vm_compute; congruence.
  - destruct (species_cases gp res1) as [[-> _]|[[-> _]| [-> _]]];
      eexists _, _; (split; [reflexivity|]); unfold handles;
      rewrite !elem_of_cons; auto.
Qed.
End Scatter.

(** ** The label columns and the reports *)

Lemma Species_not_derived : "Species" ∉ derived.
Proof. rewrite elem_of_derived. by intros [|[|]]. Qed.

Section Labels.
Context {ParseTree PState exn : Type}.
Variable gp : IrisGP ParseTree PState exn.
Variable pt : ParseTree.

(** The label columns of a returned table. *)
Lemma table_label_columns td (σ σ' : state PState) df table_loc :
  heap σ !! td = Some df →
  "Species" ∈ columns df →
  tabulate_results gp pt td σ = (σ', inr table_loc) →
  ∃ table y_true y_pred,
    heap σ' !! table_loc = Some table
    ∧ label_columns table = inr (y_true, y_pred)
    ∧ getitem "Species" df = inr y_true
    ∧ length y_true = length (rows df)
    ∧ length y_pred = length (rows df)
    ∧ Forall (λ predicted, ∃ res, predicted = VStr (species gp res)) y_pred.
Proof.
  intros Hdf Hcol Hrun.
  destruct (tabulate_results_returns _ _ _ _ _ _ _ Hdf Hrun)
    as (outs & Hevals & Hlen & -> & Hheap).
  eexists _, _, _. split; [by rewrite Hheap, lookup_insert_eq|].
  unfold label_columns, getitem; simpl.
  rewrite !decide_True;
    [|done|apply derived_result_columns, PredictedSpecies_derived
     |apply elem_of_result_columns; by left].
  split; [done|]. split_and!.
  - f_equal. rewrite <- !list_fmap_compose. apply list_fmap_ext.
    intros _ r _; simpl.
    by rewrite (settle_lookup_other gp _ _ _ Species_not_derived),
      (pending_lookup_other _ _ Species_not_derived).
  - by rewrite !length_fmap.
  - by rewrite !length_fmap.
  - rewrite !Forall_fmap. apply Forall_forall. intros r Hr; simpl.
    destruct (settled_row gp (rows df) outs r Hlen Hr) as (io & _ & _ & ->).
    simpl. rewrite fill_lookup_PredictedSpecies. simpl. by eexists.
Qed.

(** X11. On the table of an object built from a dataset with a [Species]
    column, the two label sequences that the confusion matrix and the
    classification report are computed from are read without error; they
    have one entry per record, in order: the first is the [Species] column
    of the dataset, unchanged, and every entry of the second is one of the
    class names that the thresholds produce. *)
Theorem label_columns_of_table td (σ σ' : state PState) df self :
  heap σ !! td = Some df →
  "Species" ∈ columns df →
  init gp pt td σ = (σ', inr self) →
  ∃ table y_true y_pred,
    heap σ' !! test_results self = Some table
    ∧ label_columns table = inr (y_true, y_pred)
    ∧ getitem "Species" df = inr y_true
    ∧ length y_true = length (rows df)
    ∧ length y_pred = length (rows df)
    ∧ Forall (λ predicted, ∃ res, predicted = VStr (species gp res)) y_pred.
Proof.
  intros Hdf Hcol. rewrite init_tabulate_results.
  destruct (tabulate_results gp pt td σ) as [σ1 [e|table_loc]] eqn:Hrun; [done|].
  intros [= <- <-]. simpl.
  by apply (table_label_columns td σ).
Qed.

(** X12. [__init__] does not need a [Species] column, the report methods
    do: on an object built from a dataset without that column, both raise
    [KeyError('Species')] before any metric is computed and before anything
    is plotted or printed. *)
Theorem reports_need_Species {Matrix LibError} (sk : sklearn Matrix LibError)
    td (σ σ' : state PState) df self :
  heap σ !! td = Some df →
  "Species" ∉ columns df →
  init gp pt td σ = (σ', inr self) →
  plot_confusion_matrix sk self (heap σ')
    = ([], inl (MissingColumn (mkKeyError (VStr "Species"))))
  ∧ print_classification_report sk self (heap σ')
    = ([], inl (MissingColumn (mkKeyError (VStr "Species")))).
Proof.
  intros Hdf Hcol. rewrite init_tabulate_results.
  destruct (tabulate_results gp pt td σ) as [σ1 [e|table_loc]] eqn:Hrun; [done|].
  intros [= <- <-].
  destruct (tabulate_results_returns _ _ _ _ _ _ _ Hdf Hrun)
    as (outs & Hevals & Hlen & -> & Hheap).
  unfold plot_confusion_matrix, print_classification_report, label_columns,
    getitem; simpl.
  rewrite Hheap, lookup_total_insert_eq; simpl.
  rewrite decide_False; [done|].
  rewrite elem_of_result_columns. intros [?|?]; [done|].
  by apply Species_not_derived.
Qed.

(** X13. With a predictor that reports a prediction as correct exactly
    when the class of its score is the [Species] of the row, and a dataset
    with pairwise distinct index labels, the [Correct] cell of every row of
    the table is [True] exactly when its [PredictedSpecies] cell equals its
    [Species] cell: the points drawn as correct are the records whose
    predicted species is their species. *)
Theorem Correct_agrees_with_labels td (σ σ' : state PState) df table_loc :
  consistent gp →
  NoDup (index df) →
  heap σ !! td = Some df →
  tabulate_results gp pt td σ = (σ', inr table_loc) →
  ∃ table,
    heap σ' !! table_loc = Some table
    ∧ ∀ r, r ∈ rows table →
        data r !! "Correct" = Some (VBool true)
        ↔ data r !! "Species" = data r !! "PredictedSpecies".
Proof.
  intros Hcons Hnd Hdf Hrun.
  destruct (tabulate_results_returns _ _ _ _ _ _ _ Hdf Hrun)
    as (outs & Hevals & Hlen & -> & Hheap).
  eexists. split; [by rewrite Hheap, lookup_insert_eq|]. simpl.
  rewrite (settle_rows_NoDup gp _ _ Hnd Hlen).
  intros r' (i & Hi)%list_elem_of_lookup_1.
  apply lookup_zip_with_Some in Hi as (r & [correct score] & -> & Hr & Hout).
  assert (Hio : (pending r, (correct, score))
                ∈ zip (pending <$> rows df) outs).
  { apply list_elem_of_lookup_2 with i. rewrite lookup_zip_with.
    by rewrite list_lookup_fmap, Hr, Hout. }
  destruct (evals_answers _ _ _ _ _ _ _ _ Hevals Hio) as (s0 & s1 & Hcall).
  specialize (Hcons pt (pending r) s0 s1 correct score Hcall).
  rewrite (pending_lookup_other _ _ Species_not_derived) in Hcons.
  rewrite result_record_fill. simpl.
  rewrite fill_lookup_Correct, fill_lookup_PredictedSpecies,
    (fill_lookup_other gp _ _ _ Species_not_derived). simpl.
  rewrite <- Hcons. split; [by intros [= ->]|by intros ->].
Qed.
(** X14. On the table of an object built from a dataset with a [Species]
    column, the report methods fail only if a call into sklearn fails, and
    both hand the metrics the same two sequences, the first being the
    [Species] column of the dataset. [plot_confusion_matrix] raises if
    [confusion_matrix] raises or if the plot of the display, given the
    matrix and the three fixed labels, raises; it has then made no call
    that returned. [print_classification_report] prints nothing if
    [accuracy_score] raises, exactly the accuracy line and the report
    header if [classification_report] raises, and these two followed by the
    report if both return. *)
Theorem reports_of_table {Matrix LibError} (sk : sklearn Matrix LibError)
    td (σ σ' : state PState) df self :
  heap σ !! td = Some df →
  "Species" ∈ columns df →
  init gp pt td σ = (σ', inr self) →
  ∃ y_true y_pred,
    getitem "Species" df = inr y_true
    ∧ length y_pred = length y_true
    ∧ plot_confusion_matrix sk self (heap σ') =
        match confusion_matrix sk y_true y_pred with
        | inl e => ([], inl (MetricError e))
        | inr cm =>
            match disp_plot sk cm
                    ["Iris-setosa"; "Iris-versicolor"; "Iris-virginica"] "RdPu"
            with
            | inl e => ([], inl (DisplayError e))
            | inr _ =>
                ([ ConfusionMatrixDisplay_plot cm
                     ["Iris-setosa"; "Iris-versicolor"; "Iris-virginica"]
                     "RdPu";
                   pyplot (plt_xlabel "Predicted Species");
                   pyplot (plt_ylabel "Actual Species");
                   pyplot (plt_title "GP Predicted Species Confusion Matrix");
                   pyplot (plt_grid false);
                   pyplot plt_show ], inr tt)
            end
        end
    ∧ print_classification_report sk self (heap σ') =
        match accuracy_score sk y_true y_pred with
        | inl e => ([], inl (MetricError e))
        | inr accuracy =>
            let header :=
              [ [PStr "Accuracy:"; PNum accuracy];
                [PStr (String (Ascii.ascii_of_nat 10)
                         "Classification Report:")] ] in
            match classification_report sk y_true y_pred with
            | inl e => (header, inl (MetricError e))
            | inr report => ((header ++ [[PStr report]])%list, inr tt)
            end
        end.
Proof.
  intros Hdf Hcol. rewrite init_tabulate_results.
  destruct (tabulate_results gp pt td σ) as [σ1 [e|table_loc]] eqn:Hrun; [done|].
  intros [= <- <-]. simpl.
  destruct (table_label_columns _ _ _ _ _ Hdf Hcol Hrun)
    as (table & y_true & y_pred & Htable & Hlabels & Htrue & Hlt & Hlp & _).
  exists y_true, y_pred. split; [done|]. split; [congruence|].
  unfold plot_confusion_matrix, print_classification_report.
  rewrite (lookup_total_correct _ _ _ Htable), Hlabels. split; [done|].
  destruct (accuracy_score sk y_true y_pred) as [e|a]; [done|].
  by destruct (classification_report sk y_true y_pred) as [e|report].
Qed.
End Labels.


(** ** Copies, whatever the outcome *)

Section Copies.
Context {ParseTree PState exn : Type}.
Variable gp : IrisGP ParseTree PState exn.
Variable pt : ParseTree.

(** X15. For any dataset, also one that already has derived columns, and
    whether [tabulate_results] returns or raises: the new object has one
    row per record, with the same index labels in the same order, every
    row has the three derived cells, and every cell outside the derived
    columns is the one of the record. *)
Theorem tabulate_results_copies_fields td (σ σ' : state PState) df res :
  heap σ !! td = Some df →
  tabulate_results gp pt td σ = (σ', res) →
  ∃ table,
    heap σ' !! fresh (dom (heap σ)) = Some table
    ∧ index table = index df
    ∧ ∀ i r, rows df !! i = Some r →
        ∃ r', rows table !! i = Some r'
          ∧ (∀ c, c ∈ derived → is_Some (data r' !! c))
          ∧ (∀ c, c ∉ derived → data r' !! c = data r !! c).
Proof.
  intros Hdf. rewrite (tabulate_results_run _ _ _ _ _ Hdf); simpl.
  destruct (evals gp pt (pending <$> rows df) (predictor σ)) as [[s' outs] e].
  intros [= <- <-]; simpl. eexists. split; [by rewrite lookup_insert_eq|].
  simpl. split.
  { unfold index; simpl. rewrite !index_fmap; [done|done|].
    intros r. apply name_settle. }
  intros i r Hr. eexists. split; [by rewrite !list_lookup_fmap, Hr|].
  split.
  - intros c Hc. apply elem_of_dom. rewrite dom_settle.
    + rewrite dom_pending. apply elem_of_union_r. by rewrite elem_of_list_to_set.
    + rewrite dom_pending. intros x Hx. by apply elem_of_union_r.
  - intros c Hc. by rewrite settle_lookup_other, pending_lookup_other.
Qed.
End Copies.

(** ** The further properties on the examples *)

Lemma tabulate_results_columns_witness :
  ∃ table,
    heap (tabulate_results example_gp tt 1%positive (example_state faulty_df)).1
      !! fresh (dom (heap (example_state faulty_df))) = Some table
    ∧ (∀ c, c ∈ columns table ↔ c ∈ columns faulty_df ∨ c ∈ derived)
    ∧ (NoDup (columns faulty_df) → NoDup (columns table))
    ∧ ((∀ c, c ∈ derived → c ∉ columns faulty_df) →
       columns table = (columns faulty_df ++ derived)%list).
Proof.
  apply (tabulate_results_columns example_gp tt 1%positive
           (example_state faulty_df) _ faulty_df
           (tabulate_results example_gp tt 1%positive
              (example_state faulty_df)).2).
  - reflexivity.
  - apply surjective_pairing.
Defined.

Lemma tabulate_results_rectangular_witness :
  ∃ table,
    heap (tabulate_results example_gp tt 1%positive (example_state faulty_df)).1
      !! fresh (dom (heap (example_state faulty_df))) = Some table
    ∧ rectangular table.
Proof.
  apply (tabulate_results_rectangular example_gp tt 1%positive
           (example_state faulty_df) _ faulty_df
           (tabulate_results example_gp tt 1%positive
              (example_state faulty_df)).2).
  - reflexivity.
  - apply (bool_decide_unpack _). vm_compute. exact I.
  - apply surjective_pairing.
Defined.

Lemma tabulate_results_last_label_witness :
  ∃ table,
    heap (tabulate_results example_gp tt 1%positive
            (example_state repeated_df)).1 !! 2%positive = Some table
    ∧ ∀ i r0, rows repeated_df !! i = Some r0 →
        name r0 = 0 →
        rows table !! i = Some (result_record example_gp r0 (false, Finite 9)).
Proof.
  apply (tabulate_results_last_label example_gp tt 1%positive
           (example_state repeated_df) _ repeated_df 2%positive
           [example_row 0 (VNum (Finite 1)) "Iris-setosa"]
           (example_row 0 (VNum (Finite 9)) "Iris-setosa") []
           1%nat [(true, Finite 1)] 2%nat (false, Finite 9)).
  - reflexivity.
  - vm_compute. reflexivity.
  - reflexivity.
  - apply not_elem_of_nil.
  - vm_compute. reflexivity.
  - vm_compute. reflexivity.
Defined.

Lemma plot_predictions_raises_witness :
  ∃ scs,
    plot_predictions_by_dimension example_self "Petal"
      {[ 2%positive := stale_table ]}
      = (plt_scatter <$> scs, inl (mkKeyError (VNum NaN)))
    ∧ Forall2 (λ r0 sc, scatter_args "Petal" r0 = Some sc)
        (take 1 (rows stale_table)) scs.
Proof.
  apply (plot_predictions_raises example_self "Petal"
           {[ 2%positive := stale_table ]} stale_table
           (take 1 (rows stale_table))
           (mkSeries 98
              (<["PredictedSpecies" := VNum NaN]>
                 (data (result_record example_gp
                          (example_row 98 (VNum (Finite 2)) "Iris-versicolor")
                          (true, Finite 2)))))
           (drop 2 (rows stale_table)) (VNum NaN)).
  - reflexivity.
  - apply (bool_decide_unpack _). vm_compute. exact I.
  - apply (bool_decide_unpack _). vm_compute. exact I.
  - apply (bool_decide_unpack _). vm_compute. exact I.
  - apply (bool_decide_unpack _). vm_compute. exact I.
  - apply (bool_decide_unpack _). vm_compute. exact I.
  - vm_compute. reflexivity.
  - constructor; [|constructor].
    exists (VStr "Iris-setosa"). split; [vm_compute; reflexivity|].
    exists "tab:blue". vm_compute. reflexivity.
  - vm_compute. reflexivity.
  - reflexivity.
Defined.

Lemma plot_predictions_unknown_part_witness :
  plot_predictions_by_dimension example_self "Leaf"
    {[ 2%positive :=
         mkDataFrame (result_columns example_columns) example_table ]}
  = ([], inl (mkKeyError (VStr "LeafLengthCm"))).
Proof.
  apply (plot_predictions_unknown_part example_self "Leaf"
           {[ 2%positive :=
                mkDataFrame (result_columns example_columns) example_table ]}
           (mkDataFrame (result_columns example_columns) example_table)).
  - reflexivity.
  - apply (bool_decide_unpack _). vm_compute. exact I.
  - apply (bool_decide_unpack _). vm_compute. exact I.
Defined.

Lemma plot_predictions_returns_witness :
  ∃ table scs,
    heap (init example_gp tt 1%positive (example_state example_df)).1
      !! test_results example_self = Some table
    ∧ plot_predictions_by_dimension example_self "Petal"
        (heap (init example_gp tt 1%positive (example_state example_df)).1)
      = ((plt_scatter <$> scs) ++ decorations "Petal", inr tt)%list
    ∧ Forall2 (λ r' sc, scatter_args "Petal" r' = Some sc) (rows table) scs
    ∧ Forall2 (λ r sc,
                 data r !! "PetalLengthCm" = Some (scatter_x sc)
                 ∧ data r !! "PetalWidthCm" = Some (scatter_y sc))
        (rows example_df) scs.
Proof.
  apply (plot_predictions_returns example_gp tt 1%positive
           (example_state example_df) _ example_df example_self "Petal").
  - reflexivity.
  - apply (bool_decide_unpack _). vm_compute. exact I.
  - vm_compute. reflexivity.
Defined.

Lemma colors_tell_classes_witness :
  species example_gp (Finite 1) = species example_gp (Finite (3 # 2)).
Proof.
  apply (colors_tell_classes example_gp (Finite 1) (Finite (3 # 2))).
  reflexivity.
Defined.

Lemma label_columns_of_table_witness :
  ∃ table y_true y_pred,
    heap (init example_gp tt 1%positive (example_state example_df)).1
      !! test_results example_self = Some table
    ∧ label_columns table = inr (y_true, y_pred)
    ∧ getitem "Species" example_df = inr y_true
    ∧ length y_true = length (rows example_df)
    ∧ length y_pred = length (rows example_df)
    ∧ Forall (λ predicted, ∃ res, predicted = VStr (species example_gp res))
        y_pred.
Proof.
  apply (label_columns_of_table example_gp tt 1%positive
           (example_state example_df) _ example_df example_self).
  - reflexivity.
  - apply (bool_decide_unpack _). vm_compute. exact I.
  - vm_compute. reflexivity.
Defined.

Lemma reports_need_Species_witness :
  plot_confusion_matrix example_sk example_self
    (heap (init example_gp tt 1%positive (example_state unlabelled_df)).1)
    = ([], inl (MissingColumn (mkKeyError (VStr "Species"))))
  ∧ print_classification_report example_sk example_self
      (heap (init example_gp tt 1%positive (example_state unlabelled_df)).1)
    = ([], inl (MissingColumn (mkKeyError (VStr "Species")))).
Proof.
  apply (reports_need_Species example_gp tt example_sk 1%positive
           (example_state unlabelled_df) _ unlabelled_df example_self).
  - reflexivity.
  - apply (bool_decide_unpack _). vm_compute. exact I.
  - vm_compute. reflexivity.
Defined.

Lemma example_gp_consistent : consistent example_gp.
Proof.
  intros pt row s s' correct score. unfold species. simpl.
  destruct (data row !! "PetalLengthCm") as [[| |x|]|]; try discriminate.
  intros [= _ <- <-].
  destruct (data row !! "Species") as [[| | |sp]|]; try (split; discriminate).
  rewrite String.eqb_eq. split; [by intros ->|by intros [= ->]].
Qed.

Lemma Correct_agrees_with_labels_witness :
  ∃ table,
    heap (tabulate_results example_gp tt 1%positive (example_state example_df)).1
      !! 2%positive = Some table
    ∧ ∀ r, r ∈ rows table →
        data r !! "Correct" = Some (VBool true)
        ↔ data r !! "Species" = data r !! "PredictedSpecies".
Proof.
  apply (Correct_agrees_with_labels example_gp tt 1%positive
           (example_state example_df) _ example_df 2%positive).
  - exact example_gp_consistent.
  - apply (bool_decide_unpack _). vm_compute. exact I.
  - reflexivity.
  - vm_compute. reflexivity.
Defined.

Lemma reports_of_table_witness :
  ∃ y_true y_pred,
    getitem "Species" example_df = inr y_true
    ∧ length y_pred = length y_true
    ∧ plot_confusion_matrix example_sk example_self
        (heap (init example_gp tt 1%positive (example_state example_df)).1) =
        match confusion_matrix example_sk y_true y_pred with
        | inl e => ([], inl (MetricError e))
        | inr cm =>
            match disp_plot example_sk cm
                    ["Iris-setosa"; "Iris-versicolor"; "Iris-virginica"] "RdPu"
            with
            | inl e => ([], inl (DisplayError e))
            | inr _ =>
                ([ ConfusionMatrixDisplay_plot cm
                     ["Iris-setosa"; "Iris-versicolor"; "Iris-virginica"]
                     "RdPu";
                   pyplot (plt_xlabel "Predicted Species");
                   pyplot (plt_ylabel "Actual Species");
                   pyplot (plt_title "GP Predicted Species Confusion Matrix");
                   pyplot (plt_grid false);
                   pyplot plt_show ], inr tt)
            end
        end
    ∧ print_classification_report example_sk example_self
        (heap (init example_gp tt 1%positive (example_state example_df)).1) =
        match accuracy_score example_sk y_true y_pred with
        | inl e => ([], inl (MetricError e))
        | inr accuracy =>
            let header :=
              [ [PStr "Accuracy:"; PNum accuracy];
                [PStr (String (Ascii.ascii_of_nat 10)
                         "Classification Report:")] ] in
            match classification_report example_sk y_true y_pred with
            | inl e => (header, inl (MetricError e))
            | inr report => ((header ++ [[PStr report]])%list, inr tt)
            end
        end.
Proof.
  apply (reports_of_table example_gp tt example_sk 1%positive
           (example_state example_df) _ example_df example_self).
  - reflexivity.
  - apply (bool_decide_unpack _). vm_compute. exact I.
  - vm_compute. reflexivity.
Defined.

(** With the stand-ins for sklearn: a dataset where a single species occurs
    gives a matrix of size one, which the display cannot plot with its
    three labels, so [plot_confusion_matrix] raises though no metric
    failed. *)
Example plot_confusion_matrix_one_class :
  plot_confusion_matrix example_sk example_self
    (heap (init example_gp tt 1%positive (example_state one_class_df)).1)
  = ([], inl (DisplayError "ValueError")).
Proof. vm_compute. reflexivity. Qed.

Lemma tabulate_results_copies_fields_witness :
  ∃ table,
    heap (tabulate_results example_gp tt 1%positive (example_state faulty_df)).1
      !! fresh (dom (heap (example_state faulty_df))) = Some table
    ∧ index table = index faulty_df
    ∧ ∀ i r, rows faulty_df !! i = Some r →
        ∃ r', rows table !! i = Some r'
          ∧ (∀ c, c ∈ derived → is_Some (data r' !! c))
          ∧ (∀ c, c ∉ derived → data r' !! c = data r !! c).
Proof.
  apply (tabulate_results_copies_fields example_gp tt 1%positive
           (example_state faulty_df) _ faulty_df
           (tabulate_results example_gp tt 1%positive
              (example_state faulty_df)).2).
  - reflexivity.
  - apply surjective_pairing.
Defined.
